(** * RATCHET web demo: the decoding loop and its sampling filters

    A shallow embedding of [web_demo.py]: the two logit filters
    ([top_k_logits], [top_p_logits]), the autoregressive decoding loop
    ([evaluate]) and the part of [main] that gates the upload and renders
    the attention grid.

    Scores are real numbers: a float32 tensor of shape [(1, vocab)] is a
    [list R].  Sorting, comparing, masking and [tf.argmax] mean on reals
    what they mean on finite floats.  What rounds is not computed here
    where a statement hangs on it: the quotient by the temperature, the
    attention map and the sampler are parameters of the decoder, and the
    filter of line 78 is also stated with its cumulative probabilities
    left open ([top_p_logits_with]). *)

From Stdlib Require Import String.
From Stdlib Require Import Reals Lra Lia List Arith ZArith Permutation Sorted.
Import ListNotations.
Open Scope R_scope.

(** ** Exceptions and results *)

Inductive exn : Type :=
| InvalidArgumentError   (* a TensorFlow op rejects its arguments *)
| IndexError             (* Python indexing out of range *)
| UnboundLocalError      (* a local name read before any assignment *)
| KeyError               (* a dictionary has no such key *)
| ValueError.            (* matplotlib rejects a sub-plot position *)

Inductive result (A : Type) : Type :=
| Ok (a : A)
| Raise (e : exn).
Arguments Ok {A} a.
Arguments Raise {A} e.

Definition rbind {A B} (r : result A) (k : A -> result B) : result B :=
  match r with
  | Ok a => k a
  | Raise e => Raise e
  end.

Declare Scope result_scope.
Delimit Scope result_scope with result.
Notation "x <- r ;; k" := (rbind r (fun x => k))
  (at level 61, r at next level, right associativity) : result_scope.

(** ** Comparisons on scores, as booleans *)

Definition Rltb (x y : R) : bool := if Rlt_dec x y then true else false.
Definition Rleb (x y : R) : bool := if Rle_dec x y then true else false.
Arguments Rltb : simpl never.
Arguments Rleb : simpl never.

(** ** The TensorFlow primitives the filters call, on one batch row *)

Module tf.

(** [tf.sort(l, direction='DESCENDING')] *)
Fixpoint insert (x : R) (l : list R) : list R :=
  match l with
  | [] => [x]
  | y :: t => if Rltb x y then y :: insert x t else x :: y :: t
  end.

Definition sort (l : list R) : list R := fold_right insert [] l.

(** [tf.nn.top_k(l, k=k)]: the [k] largest entries, largest first; the op
    rejects a [k] larger than the last dimension. *)
Definition nn_top_k (l : list R) (k : nat) : result (list R) :=
  if (length l <? k)%nat then Raise InvalidArgumentError
  else Ok (firstn k (sort l)).

(** [values[:, -1]] *)
Definition last (l : list R) : result R :=
  match nth_error l (length l - 1) with
  | Some x => Ok x
  | None => Raise IndexError
  end.

(** [tf.ones_like(l)] and the scalar product [l * c] *)
Definition ones_like (l : list R) : list R := map (fun _ => 1) l.
Definition scale (l : list R) (c : R) : list R := map (fun x => x * c) l.

(** [l < m], a scalar broadcast against the row *)
Definition less (l : list R) (m : R) : list bool := map (fun x => Rltb x m) l.
(** [l <= m] *)
Definition less_equal (l : list R) (m : R) : list bool :=
  map (fun x => Rleb x m) l.

(** [tf.where(c, x, y)], elementwise *)
Fixpoint where_ (c : list bool) (x y : list R) : list R :=
  match c, x, y with
  | b :: c', a :: x', d :: y' => (if b then a else d) :: where_ c' x' y'
  | _, _, _ => []
  end.

Definition reduce_sum (l : list R) : R := fold_right Rplus 0 l.

(** [tf.nn.softmax(l, axis=-1)] *)
Definition softmax (l : list R) : list R :=
  let z := reduce_sum (map exp l) in
  map (fun x => exp x / z) l.

(** [tf.cumsum(l, axis=-1)] *)
Fixpoint cumsum_from (acc : R) (l : list R) : list R :=
  match l with
  | [] => []
  | x :: t => (acc + x) :: cumsum_from (acc + x) t
  end.

Definition cumsum (l : list R) : list R := cumsum_from 0 l.

(** [tf.reduce_sum(tf.cast(c, tf.int32))] *)
Definition count_true (c : list bool) : Z :=
  fold_right (fun (b : bool) n => ((if b then 1 else 0) + n)%Z) 0%Z c.

(** [tf.gather_nd(l, [0, i])]: out of range is an error on the CPU. *)
Definition gather_nd (l : list R) (i : Z) : result R :=
  if (i <? 0)%Z then Raise InvalidArgumentError
  else match nth_error l (Z.to_nat i) with
       | Some x => Ok x
       | None => Raise InvalidArgumentError
       end.

(** [tf.argmax(l, axis=-1)]: the first index holding the maximum. *)
Fixpoint argmax_from (best : R) (besti i : nat) (l : list R) : nat :=
  match l with
  | [] => besti
  | x :: t =>
      if Rltb best x then argmax_from x i (S i) t
      else argmax_from best besti (S i) t
  end.

Definition argmax (l : list R) : nat :=
  match l with
  | [] => 0%nat
  | x :: t => argmax_from x 0%nat 1%nat t
  end.

End tf.

(** ** The two filters *)

(** The value written over a masked logit. *)
Definition sentinel : R := -1e10.

Local Open Scope result_scope.

(** [_top_k], the inner function of [top_k_logits]. *)
Definition _top_k (logits : list R) (k : nat) : result (list R) :=
  values <- tf.nn_top_k logits k ;;
  min_values <- tf.last values ;;
  Ok (tf.where_ (tf.less logits min_values)
                (tf.scale (tf.ones_like logits) sentinel)
                logits).

Definition top_k_logits (logits : list R) (k : nat) : result (list R) :=
  if (k =? 0)%nat then Ok logits
  else if (k =? 0)%nat then Ok logits   (* tf.cond(tf.equal(k, 0), ...) *)
       else _top_k logits k.

(** [top_p_logits] with line 78 left to the caller: [cumulative] stands
    for [tf.cumsum(tf.nn.softmax(.))] as it is computed on the sorted
    row, in whatever arithmetic.  The index gathered is
    [max(sum(cumulative_probs <= p) - 1, 0)]. *)
Definition top_p_index_with (cumulative : list R -> list R)
    (logits : list R) (p : R) : Z :=
  let sorted_logits := tf.sort logits in
  let cumulative_probs := cumulative sorted_logits in
  Z.max (tf.count_true (tf.less_equal cumulative_probs p) - 1) 0.

Definition top_p_logits_with (cumulative : list R -> list R)
    (logits : list R) (p : R) : result (list R) :=
  let sorted_logits := tf.sort logits in
  min_values <- tf.gather_nd sorted_logits
                             (top_p_index_with cumulative logits p) ;;
  Ok (tf.where_ (tf.less logits min_values)
                (tf.scale (tf.ones_like logits) sentinel)
                logits).

(** Line 78 over the reals. *)
Definition exact_cumulative (sorted_logits : list R) : list R :=
  tf.cumsum (tf.softmax sorted_logits).

(** [top_p_logits] over the reals.  The index gathered by it:
    [max(sum(cumulative_probs <= p) - 1, 0)]. *)
Definition top_p_index (logits : list R) (p : R) : Z :=
  let sorted_logits := tf.sort logits in
  let cumulative_probs := tf.cumsum (tf.softmax sorted_logits) in
  Z.max (tf.count_true (tf.less_equal cumulative_probs p) - 1) 0.

Definition top_p_logits (logits : list R) (p : R) : result (list R) :=
  let sorted_logits := tf.sort logits in
  min_values <- tf.gather_nd sorted_logits (top_p_index logits p) ;;
  Ok (tf.where_ (tf.less logits min_values)
                (tf.scale (tf.ones_like logits) sentinel)
                logits).

(** ** Streamlit effects and the random generator

    Everything the script shows on the page is recorded, in order, in
    [page].  [tf.random.categorical] draws from TensorFlow's generator,
    whose state [rng] is threaded through every draw. *)

Inductive st_event : Type :=
| StProgressNew (v : R)                 (* my_bar = st.progress(v) *)
| StProgress (v : R)                    (* my_bar.progress(v) *)
| StEmpty                               (* my_bar.empty() *)
| StImage
| StInfo (s : string)
| StSubheader (s : string)
| StWrite (s : string)
| AddSubplot (index : Z)                 (* fig.add_subplot(16, 8, index) *)
| SetTitle (s : string)                 (* ax.set_title(s) *)
| StPyplot
| StButton (s : string).

Record world (Gen : Type) : Type := World { page : list st_event; rng : Gen }.
Arguments World {Gen} page rng.
Arguments page {Gen} w.
Arguments rng {Gen} w.

Definition M (Gen A : Type) : Type := world Gen -> result A * world Gen.

Definition ret {Gen A} (a : A) : M Gen A := fun w => (Ok a, w).

Definition raise {Gen A} (e : exn) : M Gen A := fun w => (Raise e, w).

Definition bind {Gen A B} (m : M Gen A) (k : A -> M Gen B) : M Gen B :=
  fun w =>
    match m w with
    | (Ok a, w') => k a w'
    | (Raise e, w') => (Raise e, w')
    end.

Definition lift {Gen A} (r : result A) : M Gen A := fun w => (r, w).

Definition emit {Gen} (e : st_event) : M Gen unit :=
  fun w => (Ok tt, World (page w ++ [e]) (rng w)).

Declare Scope M_scope.
Delimit Scope M_scope with M.
Notation "x <- m ;; k" := (bind m (fun x => k))
  (at level 61, m at next level, right associativity) : M_scope.
Notation "' pat <- m ;; k" :=
  (bind m (fun x => match x with pat => k end))
  (at level 61, pat pattern, m at next level, right associativity) : M_scope.
Notation "m ;;; k" := (bind m (fun _ => k))
  (at level 61, right associativity) : M_scope.

(** [range(n)] for a Python integer [n]: empty when [n <= 0]. *)
Definition range (n : Z) : list nat := seq 0 (Z.to_nat n).

(** ** The decoder *)

Record Tokenizer : Type := {
  token_to_id : string -> Z;
  decode : list Z -> string;
  get_vocab_size : nat
}.

(** The id compared against in [if predicted_id == 2]. *)
Definition stop_token : Z := 2.

Section Decoder.

Context {Image Attn Mask Gen : Type}.

(** [model.utils.create_target_masks] *)
Variable create_target_masks : list Z -> Mask.

(** [tf.random.categorical(logits, num_samples=1, seed=seed)] *)
Variable categorical : list R -> Z -> Gen -> Z * Gen.

(** [row / temperature], the float32 quotient of a row by a scalar as
    TensorFlow computes it.  It never raises: dividing by 0 fills the row
    with infinities and NaN and the program carries on.  Scores have no
    such values, so what the row holds then is left to this parameter,
    as is the rounding of every other quotient. *)
Variable truediv : list R -> R -> list R.

(** Lines 191 to 193: [attention_weights['decoder_layer6_block2'][0]]
    averaged over the heads and rescaled to 0..255, one row of patch
    weights per decoder position; or the exception the lookup raises. *)
Variable attention_map : Attn -> result (list (list R)).

(** A call [transformer(inp_img, output, training, mask, None)] returns the
    predictions, one row of vocabulary scores per position, and the
    attention weights. *)
Definition Transformer : Type :=
  Image -> list Z -> bool -> Mask -> list (list R) * Attn.

(** [predictions[:, -1, :]] *)
Definition last_position (predictions : list (list R)) : result (list R) :=
  match nth_error predictions (length predictions - 1) with
  | Some row => Ok row
  | None => Raise IndexError
  end.

Local Open Scope M_scope.

(** The body of the [for] loop up to the choice of [predicted_id]. *)
Definition decode_step (inp_img : Image) (transformer : Transformer)
    (temperature : R) (top_k : nat) (top_p : R) (options : string)
    (seed : Z) (MAX_LENGTH : nat) (i : nat) (output : list Z)
  : M Gen (Z * Attn) :=
  emit (StProgress (INR i / INR MAX_LENGTH)) ;;;
  let combined_mask := create_target_masks output in
  let '(predictions, attention_weights) :=
    transformer inp_img output false combined_mask in
  row <- lift (last_position predictions) ;;
  let predictions := truediv row temperature in
  predictions <- lift (top_k_logits predictions top_k) ;;
  predictions <- lift (top_p_logits predictions top_p) ;;
  predicted_id <-
    (if String.eqb options "Greedy" then
       ret (Z.of_nat (tf.argmax predictions))
     else if String.eqb options "Sampling" then
       fun w => let '(id, g) := categorical predictions seed (rng w) in
                (Ok id, World (page w) g)
     else
       (* no branch binds [predicted_id]; the test below reads it *)
       emit (StWrite "SHOULD NOT HAPPEN") ;;; raise UnboundLocalError) ;;
  ret (predicted_id, attention_weights).

(** The [for i in range(MAX_LENGTH)] loop over the indices still to run.
    [last] holds the values [attention_weights] and [i] are bound to once
    an iteration has run. *)
Fixpoint decode_loop (inp_img : Image) (transformer : Transformer)
    (temperature : R) (top_k : nat) (top_p : R) (options : string)
    (seed : Z) (MAX_LENGTH : nat)
    (indices : list nat) (output : list Z) (last : option (Attn * nat))
  : M Gen (list Z * Attn * nat) :=
  match indices with
  | [] =>
      emit StEmpty ;;;
      match last with
      | Some (attention_weights, i) => ret (tl output, attention_weights, i)
      | None => raise UnboundLocalError
      end
  | i :: rest =>
      ' (predicted_id, attention_weights) <-
        decode_step inp_img transformer temperature top_k top_p options
                    seed MAX_LENGTH i output ;;
      if (predicted_id =? stop_token)%Z then
        emit StEmpty ;;; ret (tl output, attention_weights, i)
      else
        decode_loop inp_img transformer temperature top_k top_p options
                    seed MAX_LENGTH rest (output ++ [predicted_id])
                    (Some (attention_weights, i))
  end.

Definition evaluate (inp_img : Image) (tokenizer : Tokenizer)
    (transformer : Transformer) (temperature : R) (top_k : nat)
    (top_p : R) (options : string) (seed : Z) (MAX_LENGTH : nat)
  : M Gen (list Z * Attn * nat) :=
  let output := [token_to_id tokenizer "<s>"] in
  emit (StProgressNew 0) ;;;
  decode_loop inp_img transformer temperature top_k top_p options seed
              MAX_LENGTH (range (Z.of_nat MAX_LENGTH)) output None.

(** The number of decoding steps a run has entered: one [my_bar.progress]
    call opens each iteration of the loop. *)
Definition steps_executed (p : list st_event) : nat :=
  List.length (filter (fun e => match e with StProgress _ => true
                                        | _ => false end) p).

(** *** The gate and the renderer in [main] *)

Definition sigmoid (x : R) : R := 1 / (1 + exp (- x)).

(** The values read from the sidebar widgets. *)
Record sidebar : Type := {
  options : string;
  seed : Z;
  temperature : R;
  top_k : nat;
  top_p : R
}.

(** [attn_map[i, ...]]: a row index past the end is rejected. *)
Definition attention_row (attn_map : list (list R)) (i : nat)
  : result (list R) :=
  match nth_error attn_map i with
  | Some attn_token => Ok attn_token
  | None => Raise InvalidArgumentError
  end.

(** [tf.reshape(attn_token, [7, 7])]: the row must hold 49 weights. *)
Definition reshape_7_7 (attn_token : list R) : result (list (list R)) :=
  if (List.length attn_token =? 7 * 7)%nat then
    Ok (map (fun r => firstn 7 (skipn (7 * r) attn_token)) (seq 0 7))
  else Raise InvalidArgumentError.

(** [fig.add_subplot(16, 8, index)]: the position must lie in the grid. *)
Definition add_subplot (index : Z) : M Gen unit :=
  if andb (1 <=? index)%Z (index <=? 16 * 8)%Z then emit (AddSubplot index)
  else raise ValueError.

(** [result.numpy()[i]] *)
Definition token_at (ids : list Z) (i : nat) : result Z :=
  match nth_error ids i with
  | Some id => Ok id
  | None => Raise IndexError
  end.

(** The [for i in range(tokens - 1)] loop that adds the sub-plots. *)
Fixpoint plot_loop (tokenizer : Tokenizer) (result : list Z)
    (attn_map : list (list R)) (indices : list nat) : M Gen unit :=
  match indices with
  | [] => ret tt
  | i :: rest =>
      attn_token <- lift (attention_row attn_map i) ;;
      attn_token <- lift (reshape_7_7 attn_token) ;;
      add_subplot (Z.of_nat i + 1) ;;;
      id <- lift (token_at result i) ;;
      emit (SetTitle (decode tokenizer [id])) ;;;
      plot_loop tokenizer result attn_map rest
  end.

(** [main] once the widgets are read; [uploaded_file] is the uploaded
    image already resized, or [None]. *)
Definition main (tokenizer : Tokenizer) (transformer : Transformer)
    (cxr_validator_model : Image -> R) (cfg : sidebar)
    (uploaded_file : option Image) : M Gen unit :=
  match uploaded_file with
  | None => ret tt
  | Some img_array =>
      emit StImage ;;;
      let valid := sigmoid (cxr_validator_model img_array) in
      if Rltb valid 0.1 then
        emit (StInfo "Image is not a Chest X-ray")
      else
        ' (result, attention_weights, tokens) <-
          evaluate img_array tokenizer transformer (temperature cfg)
                   (top_k cfg) (top_p cfg) (options cfg) (seed cfg) 128 ;;
        let predicted_sentence := decode tokenizer result in
        emit (StSubheader "Generated Report:") ;;;
        emit (StWrite predicted_sentence) ;;;
        emit (StSubheader "Attention Plot:") ;;;
        attn_map <- lift (attention_map attention_weights) ;;
        plot_loop tokenizer result attn_map (range (Z.of_nat tokens - 1)) ;;;
        emit StPyplot ;;;
        emit (StButton "Regenerate Report")
  end.

End Decoder.

(** *** The sidebar widgets *)






(** ** Vocabulary of the statements *)

(** What [tf.where(logits < m, sentinel, logits)] does to one logit. *)
Definition mask (m x : R) : R := if Rltb x m then sentinel else x.

(** How many entries of a row satisfy a test. *)
Definition count (f : R -> bool) (l : list R) : nat :=
  List.length (filter f l).

(** Entries strictly above, and not below, a score. *)
Definition count_gt (b : R) (l : list R) : nat := count (fun x => Rltb b x) l.
Definition count_ge (b : R) (l : list R) : nat :=
  count (fun x => negb (Rltb x b)) l.

(** Entries of a filtered row that do not hold the sentinel. *)
Definition unmasked (out : list R) : nat :=
  count (fun x => if Req_dec_T x sentinel then false else true) out.

(** A row in descending order. *)
Definition descending (l : list R) : Prop :=
  StronglySorted (fun a b => b <= a) l.

(** The softmax probability carried by the [n] best candidates. *)
Definition prefix_mass (logits : list R) (n : nat) : R :=
  tf.reduce_sum (firstn n (tf.softmax (tf.sort logits))).

(** [n] is the length of the shortest prefix of the candidates, best first,
    whose probability reaches [p]. *)
Definition smallest_nucleus (logits : list R) (p : R) (n : nat) : Prop :=
  p <= prefix_mass logits n /\
  forall m, (m < n)%nat -> prefix_mass logits m < p.

(** The filtered row differs from the logits only where it holds the
    sentinel: same length, same order, every entry kept or overwritten. *)
Definition mask_only (logits out : list R) : Prop :=
  Forall2 (fun x y => y = x \/ y = sentinel) logits out.

(** The filtered row keeps every logit not below [b], those equal to [b]
    included, and overwrites every logit strictly below [b]. *)
Definition masked_below (b : R) (logits out : list R) : Prop :=
  Forall2 (fun x y => (b <= x -> y = x) /\ (x < b -> y = sentinel))
          logits out.

(** The page once [my_bar.empty()] has run. *)
Definition bar_emptied {Gen} (w : world Gen) : world Gen :=
  World (page w ++ [StEmpty]) (rng w).

(** The sub-plots added to the figure. *)
Definition subplots (p : list st_event) : nat :=
  List.length (filter (fun e => match e with AddSubplot _ => true
                                        | _ => false end) p).

(** The upload was turned away, and the decoder was started. *)
Definition rejected (p : list st_event) : Prop :=
  In (StInfo "Image is not a Chest X-ray") p.
Definition generation_started (p : list st_event) : Prop :=
  In (StProgressNew 0) p.

(** Events a decoding run may add to the page. *)
Definition decoder_event (e : st_event) : Prop :=
  match e with
  | StProgressNew _ | StProgress _ | StEmpty | StWrite _ => True
  | _ => False
  end.

Section DecoderVocabulary.

Context {Image Attn Mask Gen : Type}.
Variable create_target_masks : list Z -> Mask.
Variable categorical : list R -> Z -> Gen -> Z * Gen.
Variable truediv : list R -> R -> list R.
Variable inp_img : Image.
Variable transformer : @Transformer Image Attn Mask.
Variables (temperature : R) (top_k : nat) (top_p : R).
Variables (options : string) (seed : Z) (MAX_LENGTH : nat).

(** [decodes i out w ts w']: from step [i], with [out] fed to the
    decoder and the world [w], the next steps select the ids [ts] one
    after the other, none of them the stop token, each appended to the
    decoder input before the next step, and leave the world [w']. *)
Inductive decodes :
  nat -> list Z -> world Gen -> list Z -> world Gen -> Prop :=
| decodes_done i out w : decodes i out w [] w
| decodes_more i out w t a w1 ts w' :
    decode_step create_target_masks categorical truediv inp_img transformer
                temperature top_k top_p options seed MAX_LENGTH i out w
    = (Ok (t, a), w1) ->
    t <> stop_token ->
    decodes (S i) (out ++ [t]) w1 ts w' ->
    decodes i out w (t :: ts) w'.

(** What [attention_weights] and [i] hold when the loop is about to run
    step [s]. *)
Definition bound_before (s : nat) (last : option (Attn * nat)) : Prop :=
  match last with
  | None => s = 0%nat
  | Some (_, i) => s = S i
  end.

(** The attention weights the transformer returns on a decoder input. *)
Definition attention_on (output : list Z) : Attn :=
  snd (transformer inp_img output false (create_target_masks output)).

End DecoderVocabulary.

(** *** Stand-ins for the model, used to run the decoder on examples *)

Definition demo_tokenizer : Tokenizer :=
  {| token_to_id := fun _ => 0%Z;
     decode := fun _ => ""%string;
     get_vocab_size := 4 |}.

Definition no_masks (output : list Z) : unit := tt.

Definition fixed_sampler (logits : list R) (seed : Z) (g : unit) : Z * unit :=
  (0%Z, g).



(** The quotient over the reals, with [at_zero] deciding what a division
    by 0 leaves in the row. *)
Definition quotient_with (at_zero : list R -> list R)
    (row : list R) (t : R) : list R :=
  if Req_dec_T t 0 then at_zero row else map (fun x => x / t) row.

Definition demo_quotient : list R -> R -> list R :=
  quotient_with (fun row => row).

(** An attention map of 129 positions over the 49 patches. *)
Definition flat_attention (a : unit) : result (list (list R)) :=
  Ok (repeat (repeat 1 49) 129).

(** Scores that make id 2, the stop token, the best at every step. *)
Definition stops_at_once : @Transformer unit unit unit :=
  fun _ _ _ _ => ([[0; 0; 1]], tt).

(** Scores that make id 3 the best at every step. *)
Definition never_stops : @Transformer unit unit unit :=
  fun _ _ _ _ => ([[0; 0; 0; 1]], tt).

(** Id 3 at the first step, the stop token afterwards. *)
Definition one_then_stop : @Transformer unit unit unit :=
  fun _ output _ _ =>
    (if (List.length output =? 1)%nat then [[0; 0; 0; 1]] else [[0; 0; 1]],
     tt).

(** Id 3 at the first two steps, the stop token afterwards. *)
Definition two_then_stop : @Transformer unit unit unit :=
  fun _ output _ _ =>
    (if (List.length output <=? 2)%nat then [[0; 0; 0; 1]] else [[0; 0; 1]],
     tt).

(** Three distinct scores at every step, the best one in the middle. *)
Definition middle_best : @Transformer unit unit unit :=
  fun _ _ _ _ => ([[2; 3; 1]], tt).

(** As [one_then_stop], with the length of the decoder input in the place
    of the attention weights. *)
Definition counting_heads : @Transformer unit nat unit :=
  fun _ output _ _ =>
    (if (List.length output =? 1)%nat then [[0; 0; 0; 1]] else [[0; 0; 1]],
     List.length output).

Definition blank : world unit := World [] tt.

(** The decoder on a stand-in: greedy, top-k and top-p disabled. *)
Definition demo_step (transformer : @Transformer unit unit unit)
    (MAX_LENGTH : nat) :=
  decode_step no_masks fixed_sampler demo_quotient tt transformer 1 0 1
              "Greedy" 42 MAX_LENGTH.

Definition demo_evaluate (transformer : @Transformer unit unit unit)
    (temperature : R) (MAX_LENGTH : nat) :=
  evaluate no_masks fixed_sampler demo_quotient tt demo_tokenizer
           transformer temperature 0 1 "Greedy" 42 MAX_LENGTH.


(** The sidebar as it loads. *)
Definition default_sidebar : sidebar :=
  {| options := "Greedy"; seed := 42; temperature := 1; top_k := 0%nat;
     top_p := 1 |}.

(** Events other than the rejection message. *)
Definition not_info (e : st_event) : Prop :=
  match e with
  | StInfo _ => False
  | _ => True
  end.

(** [first_max l i m]: the score [m] sits at position [i] of the row, no
    entry exceeds it, and every entry before position [i] is strictly
    below it. *)
Definition first_max (l : list R) (i : nat) (m : R) : Prop :=
  nth_error l i = Some m /\
  Forall (fun x => x <= m) l /\
  forall j y, (j < i)%nat -> nth_error l j = Some y -> y < m.

(** The values passed to [my_bar.progress], in order. *)
Definition progress_values (p : list st_event) : list R :=
  flat_map (fun e => match e with StProgress v => [v] | _ => [] end) p.

(** The positions passed to [fig.add_subplot(16, 8, _)], in order. *)
Definition subplot_indices (p : list st_event) : list Z :=
  flat_map (fun e => match e with AddSubplot n => [n] | _ => [] end) p.

(** What one turn of the plotting loop for [j] adds to the figure. *)
Definition plotted (title : nat -> string) (indices : list nat)
  : list st_event :=
  flat_map (fun j => [AddSubplot (Z.of_nat j + 1); SetTitle (title j)])
           indices.

(** The attention map has a row of 7 x 7 patch weights at position [j]. *)
Definition has_patches (attn_map : list (list R)) (j : nat) : Prop :=
  exists row, nth_error attn_map j = Some row /\
              List.length row = (7 * 7)%nat.

(** ** Comparisons *)

Lemma Rltb_lt (x y : R) : Rltb x y = true <-> x < y.
Proof.
  unfold Rltb. destruct (Rlt_dec x y); split; intros; try easy.
Qed.

Lemma Rltb_ge (x y : R) : Rltb x y = false <-> y <= x.
Proof.
  unfold Rltb. destruct (Rlt_dec x y); split; intros; try easy; lra.
Qed.

Lemma Rleb_le (x y : R) : Rleb x y = true <-> x <= y.
Proof.
  unfold Rleb. destruct (Rle_dec x y); split; intros; try easy.
Qed.

Lemma Rleb_gt (x y : R) : Rleb x y = false <-> y < x.
Proof.
  unfold Rleb. destruct (Rle_dec x y); split; intros; try easy; lra.
Qed.

(** Decide the comparisons of a goal between numerals. *)
Ltac rcompare :=
  repeat match goal with
    | |- context [Rltb ?x ?y] =>
        first [ replace (Rltb x y) with true
                  by (symmetry; apply Rltb_lt; unfold sentinel; lra)
              | replace (Rltb x y) with false
                  by (symmetry; apply Rltb_ge; unfold sentinel; lra) ]
    | |- context [Rleb ?x ?y] =>
        first [ replace (Rleb x y) with true
                  by (symmetry; apply Rleb_le; unfold sentinel; lra)
              | replace (Rleb x y) with false
                  by (symmetry; apply Rleb_gt; unfold sentinel; lra) ]
    end.

(** ** The masking step *)

Lemma where_is_mask (m : R) (l : list R) :
  tf.where_ (tf.less l m) (tf.scale (tf.ones_like l) sentinel) l
  = map (mask m) l.
Proof.
  unfold tf.less, tf.scale, tf.ones_like.
  induction l as [|x l IH]; simpl; [reflexivity|].
  rewrite IH. unfold mask.
  destruct (Rltb x m); [f_equal; lra | reflexivity].
Qed.

Lemma mask_cases (m x : R) : mask m x = x \/ mask m x = sentinel.
Proof. unfold mask. destruct (Rltb x m); auto. Qed.

Lemma mask_keeps (m x : R) : m <= x -> mask m x = x.
Proof. intros H. unfold mask. apply Rltb_ge in H. now rewrite H. Qed.

Lemma mask_drops (m x : R) : x < m -> mask m x = sentinel.
Proof. intros H. unfold mask. apply Rltb_lt in H. now rewrite H. Qed.

(** ** Sorting *)

Lemma insert_perm (x : R) (l : list R) : Permutation (tf.insert x l) (x :: l).
Proof.
  induction l as [|y l IH]; simpl; [reflexivity|].
  destruct (Rltb x y); [|reflexivity].
  rewrite IH. apply perm_swap.
Qed.

Lemma sort_perm (l : list R) : Permutation (tf.sort l) l.
Proof.
  induction l as [|x l IH]; simpl; [reflexivity|].
  rewrite insert_perm. now constructor.
Qed.

Lemma sort_length (l : list R) : List.length (tf.sort l) = List.length l.
Proof. apply Permutation_length, sort_perm. Qed.

Lemma insert_descending (x : R) (l : list R) :
  descending l -> descending (tf.insert x l).
Proof.
  unfold descending. induction 1 as [|y l Hl IH Hy]; simpl.
  - repeat constructor.
  - destruct (Rltb x y) eqn:E.
    + constructor; [exact IH|].
      apply (Permutation_Forall (x := x :: l)).
      * symmetry. apply insert_perm.
      * constructor; [apply Rltb_lt in E; lra | exact Hy].
    + apply Rltb_ge in E. constructor.
      * now constructor.
      * constructor; [exact E|].
        eapply Forall_impl; [|exact Hy]. simpl. intros; lra.
Qed.

Lemma sort_descending (l : list R) : descending (tf.sort l).
Proof.
  induction l as [|x l IH]; simpl; [constructor|].
  now apply insert_descending.
Qed.

(** ** Counting *)

Lemma count_perm (f : R -> bool) (l l' : list R) :
  Permutation l l' -> count f l = count f l'.
Proof.
  unfold count. induction 1; simpl; auto.
  - destruct (f x); simpl; congruence.
  - destruct (f x), (f y); reflexivity.
  - congruence.
Qed.

Lemma count_none (f : R -> bool) (l : list R) :
  Forall (fun x => f x = false) l -> count f l = 0%nat.
Proof.
  unfold count. induction 1 as [|x l Hx _ IH]; simpl; [reflexivity|].
  now rewrite Hx.
Qed.

(** In a descending row the entry at position [j] has at most [j] entries
    strictly above it and at least [j + 1] entries not below it. *)
Lemma descending_count (s : list R) :
  descending s ->
  forall j b, nth_error s j = Some b ->
    (count_gt b s <= j)%nat /\ (j + 1 <= count_ge b s)%nat.
Proof.
  unfold descending, count_gt, count_ge.
  induction 1 as [|a s Hs IH Ha]; intros j b Hj.
  - destruct j; discriminate.
  - destruct j as [|j]; simpl in Hj.
    + injection Hj as <-. split.
      * rewrite count_none; [lia|].
        constructor; [apply Rltb_ge; lra|].
        eapply Forall_impl; [|exact Ha]. simpl. intros x Hx.
        now apply Rltb_ge.
      * unfold count. simpl.
        replace (Rltb a a) with false by (symmetry; apply Rltb_ge; lra).
        simpl. lia.
    + destruct (IH j b Hj) as [Hgt Hge].
      assert (Hba : b <= a).
      { apply nth_error_In in Hj. rewrite Forall_forall in Ha. auto. }
      unfold count in *. simpl. split.
      * destruct (Rltb b a); simpl; lia.
      * replace (Rltb a b) with false by (symmetry; apply Rltb_ge; lra).
        simpl. lia.
Qed.

Lemma count_ge_split (b : R) (l : list R) :
  count_ge b l = (count_gt b l + count_occ Req_dec_T l b)%nat.
Proof.
  unfold count_ge, count_gt, count.
  induction l as [|x l IH]; simpl; [reflexivity|].
  destruct (Req_dec_T x b) as [->|Hne].
  - replace (Rltb b b) with false by (symmetry; apply Rltb_ge; lra).
    simpl. lia.
  - destruct (Rltb x b) eqn:E1; destruct (Rltb b x) eqn:E2; simpl;
      try lia.
    + apply Rltb_lt in E1, E2. lra.
    + apply Rltb_ge in E1, E2. lra.
Qed.

Lemma unmasked_mask_le (b : R) (l : list R) :
  (unmasked (map (mask b) l) <= count_ge b l)%nat.
Proof.
  unfold unmasked, count_ge, count.
  induction l as [|x l IH]; cbn [map filter]; [simpl; lia|].
  destruct (Rlt_dec x b) as [Hlt|Hge].
  - rewrite (mask_drops b x Hlt).
    replace (Rltb x b) with true by (symmetry; now apply Rltb_lt).
    destruct (Req_dec_T sentinel sentinel); [exact IH | contradiction].
  - rewrite (mask_keeps b x) by lra.
    replace (Rltb x b) with false by (symmetry; apply Rltb_ge; lra).
    destruct (Req_dec_T x sentinel); simpl; lia.
Qed.

Lemma map_mask_only (b : R) (l : list R) : mask_only l (map (mask b) l).
Proof.
  unfold mask_only. induction l as [|x l IH]; simpl; constructor; auto.
  apply mask_cases.
Qed.

Lemma map_masked_below (b : R) (l : list R) :
  masked_below b l (map (mask b) l).
Proof.
  unfold masked_below. induction l as [|x l IH]; simpl; constructor; auto.
  split; [apply mask_keeps | apply mask_drops].
Qed.

Lemma mask_only_refl (l : list R) : mask_only l l.
Proof. unfold mask_only. induction l; constructor; auto. Qed.

(** ** Top-k filtering *)

Lemma top_k_zero (logits : list R) : top_k_logits logits 0 = Ok logits.
Proof. reflexivity. Qed.

Lemma top_k_too_large (logits : list R) (k : nat) :
  (List.length logits < k)%nat ->
  top_k_logits logits k = Raise InvalidArgumentError.
Proof.
  intros H. unfold top_k_logits, _top_k, tf.nn_top_k.
  destruct (Nat.eqb_spec k 0); [lia|].
  destruct (Nat.ltb_spec (List.length logits) k); [reflexivity | lia].
Qed.

(** Within range the row is masked below the [k]-th best score. *)
Lemma top_k_in_range (logits : list R) (k : nat) :
  (1 <= k <= List.length logits)%nat ->
  exists b, nth_error (tf.sort logits) (k - 1) = Some b /\
            top_k_logits logits k = Ok (map (mask b) logits).
Proof.
  intros [Hk1 Hk2].
  destruct (nth_error (tf.sort logits) (k - 1)) as [b|] eqn:Hb.
  2:{ apply nth_error_None in Hb. rewrite sort_length in Hb. lia. }
  exists b. split; [reflexivity|].
  unfold top_k_logits, _top_k, tf.nn_top_k.
  destruct (Nat.eqb_spec k 0); [lia|].
  destruct (Nat.ltb_spec (List.length logits) k); [lia|].
  cbn [rbind]. unfold tf.last.
  rewrite length_firstn, sort_length, Nat.min_l by lia.
  rewrite nth_error_firstn.
  destruct (Nat.ltb_spec (k - 1) k); [|lia].
  rewrite Hb. cbn [rbind]. now rewrite where_is_mask.
Qed.

Lemma top_k_inversion (logits out : list R) (k : nat) :
  top_k_logits logits k = Ok out ->
  (k = 0%nat /\ out = logits) \/
  ((1 <= k <= List.length logits)%nat /\
   exists b, nth_error (tf.sort logits) (k - 1) = Some b /\
             out = map (mask b) logits).
Proof.
  intros H. destruct (Nat.eq_dec k 0) as [->|Hk].
  - left. rewrite top_k_zero in H. injection H as <-. auto.
  - right. destruct (Nat.lt_ge_cases (List.length logits) k) as [Hlt|Hge].
    + rewrite top_k_too_large in H by exact Hlt. discriminate.
    + assert (Hr : (1 <= k <= List.length logits)%nat) by lia.
      split; [exact Hr|].
      destruct (top_k_in_range logits k Hr) as (b & Hb & Hout).
      exists b. split; [exact Hb|]. congruence.
Qed.

(** Concrete rows, evaluated. *)
Lemma top_k_tied_pair : top_k_logits [1; 1] 1 = Ok [1; 1].
Proof.
  unfold top_k_logits, _top_k, tf.nn_top_k, tf.last. simpl.
  rcompare. simpl. unfold tf.less. simpl. rcompare. reflexivity.
Qed.

Lemma unmasked_tied_pair : unmasked [1; 1] = 2%nat.
Proof.
  unfold unmasked, count. simpl.
  destruct (Req_dec_T 1 sentinel) as [E|_];
    [unfold sentinel in E; lra | reflexivity].
Qed.

(** C2, as amended.  With [k = 0] the row is returned as it is; a [k] above
    the row length is rejected; otherwise exactly the logits strictly below
    the [k]-th best score [b] are overwritten.  Fewer than [k] logits lie
    strictly above [b] and at least [k] do not lie below it, so the number
    of entries left unmasked is at most [k - 1] plus the number of logits
    equal to [b]: at most [k] when the scores are pairwise distinct. *)
Theorem top_k_logits_retains (logits : list R) (k : nat) :
  (k = 0%nat -> top_k_logits logits k = Ok logits) /\
  ((List.length logits < k)%nat ->
   top_k_logits logits k = Raise InvalidArgumentError) /\
  ((1 <= k <= List.length logits)%nat ->
   exists b,
     nth_error (tf.sort logits) (k - 1) = Some b /\
     top_k_logits logits k = Ok (map (mask b) logits) /\
     masked_below b logits (map (mask b) logits) /\
     (count_gt b logits < k <= count_ge b logits)%nat /\
     (unmasked (map (mask b) logits)
      <= k - 1 + count_occ Req_dec_T logits b)%nat /\
     (NoDup logits -> (unmasked (map (mask b) logits) <= k)%nat)).
Proof.
  split; [intros ->; apply top_k_zero|].
  split; [apply top_k_too_large|].
  intros Hr. destruct (top_k_in_range logits k Hr) as (b & Hb & Hout).
  exists b. split; [exact Hb|]. split; [exact Hout|].
  split; [apply map_masked_below|].
  destruct (descending_count _ (sort_descending logits) _ _ Hb) as [Hgt Hge].
  unfold count_gt, count_ge in Hgt, Hge.
  rewrite (count_perm _ _ _ (sort_perm logits)) in Hgt.
  rewrite (count_perm _ _ _ (sort_perm logits)) in Hge.
  fold (count_gt b logits) in Hgt. fold (count_ge b logits) in Hge.
  assert (Hun := unmasked_mask_le b logits).
  rewrite count_ge_split in Hun.
  split; [lia|]. split; [lia|].
  intros Hnd. rewrite (NoDup_count_occ Req_dec_T) in Hnd.
  specialize (Hnd b). lia.
Qed.

Lemma top_k_logits_retains_witness :
  (1 <= 2 <= List.length [3; 1; 2]%R)%nat /\
  exists b,
    nth_error (tf.sort [3; 1; 2]) (2 - 1) = Some b /\
    top_k_logits [3; 1; 2] 2 = Ok (map (mask b) [3; 1; 2]) /\
    masked_below b [3; 1; 2] (map (mask b) [3; 1; 2]) /\
    (count_gt b [3; 1; 2]%R < 2 <= count_ge b [3; 1; 2]%R)%nat /\
    (unmasked (map (mask b) [3; 1; 2]%R)
     <= 2 - 1 + count_occ Req_dec_T [3; 1; 2]%R b)%nat /\
    (NoDup [3; 1; 2] -> (unmasked (map (mask b) [3; 1; 2]%R) <= 2)%nat).
Proof.
  assert (H : (1 <= 2 <= List.length [3; 1; 2]%R)%nat) by (simpl; lia).
  split; [exact H|].
  exact (proj2 (proj2 (top_k_logits_retains [3; 1; 2] 2)) H).
Defined.

(** C2, as stated, fails when logits tie with the boundary score: with
    [k = 1] a row of two equal logits keeps both. *)
Lemma top_k_logits_keeps_ties :
  top_k_logits [1; 1] 1 = Ok [1; 1] /\ (1 < unmasked [1; 1]%R)%nat.
Proof.
  split; [exact top_k_tied_pair|]. rewrite unmasked_tied_pair. lia.
Qed.

(** ** Softmax and cumulative sums *)

Lemma Rdiv_le_iff (a d q : R) : 0 < d -> (a / d <= q <-> a <= q * d).
Proof.
  intros Hd. unfold Rdiv. split; intros H.
  - apply (Rmult_le_compat_r d) in H; [|lra].
    rewrite Rmult_assoc, Rinv_l, Rmult_1_r in H by lra. exact H.
  - apply (Rmult_le_reg_r d); [exact Hd|].
    rewrite Rmult_assoc, Rinv_l, Rmult_1_r by lra. exact H.
Qed.

Lemma sum_exp_nonneg (l : list R) : 0 <= tf.reduce_sum (map exp l).
Proof.
  induction l as [|x l IH]; simpl; [lra|].
  pose proof (exp_pos x). lra.
Qed.

Lemma sum_exp_pos (l : list R) : l <> [] -> 0 < tf.reduce_sum (map exp l).
Proof.
  destruct l as [|x l]; [congruence|]. intros _. simpl.
  pose proof (exp_pos x). pose proof (sum_exp_nonneg l). lra.
Qed.

Lemma softmax_length (l : list R) :
  List.length (tf.softmax l) = List.length l.
Proof. unfold tf.softmax. apply length_map. Qed.

Lemma softmax_pos (l : list R) : Forall (fun q => 0 < q) (tf.softmax l).
Proof.
  destruct l as [|x l]; [constructor|].
  unfold tf.softmax. apply Forall_forall. intros q Hq.
  apply in_map_iff in Hq. destruct Hq as (y & <- & _).
  apply Rdiv_lt_0_compat; [apply exp_pos | apply sum_exp_pos; congruence].
Qed.

Lemma sum_map_div (f : R -> R) (z : R) (l : list R) :
  tf.reduce_sum (map (fun x => f x / z) l) = tf.reduce_sum (map f l) / z.
Proof.
  induction l as [|x l IH]; simpl; [lra|]. rewrite IH. lra.
Qed.

Lemma softmax_sum (l : list R) : l <> [] -> tf.reduce_sum (tf.softmax l) = 1.
Proof.
  intros Hl. unfold tf.softmax. rewrite sum_map_div.
  pose proof (sum_exp_pos l Hl). unfold Rdiv. apply Rinv_r. lra.
Qed.

Lemma cumsum_from_length (acc : R) (l : list R) :
  List.length (tf.cumsum_from acc l) = List.length l.
Proof.
  revert acc. induction l as [|x l IH]; intros acc; simpl; auto.
Qed.

Lemma cumsum_from_nth (l : list R) :
  forall acc j, (j < List.length l)%nat ->
    nth_error (tf.cumsum_from acc l) j
    = Some (acc + tf.reduce_sum (firstn (S j) l)).
Proof.
  induction l as [|x l IH]; intros acc j Hj; simpl in Hj; [lia|].
  destruct j as [|j].
  - simpl. f_equal. lra.
  - cbn [tf.cumsum_from nth_error]. rewrite IH by lia.
    f_equal. cbn [firstn tf.reduce_sum fold_right].
    unfold tf.reduce_sum. lra.
Qed.

(** The cumulative probabilities, entry by entry. *)
Lemma cumulative_probs_nth (logits : list R) (j : nat) :
  (j < List.length logits)%nat ->
  nth_error (tf.cumsum (tf.softmax (tf.sort logits))) j
  = Some (prefix_mass logits (S j)).
Proof.
  intros Hj. unfold tf.cumsum, prefix_mass.
  rewrite cumsum_from_nth by (now rewrite softmax_length, sort_length).
  f_equal. lra.
Qed.

(** ** Counting the cumulative probabilities not above [p] *)

Lemma count_true_none (c : list R) (p : R) :
  Forall (fun y => p < y) c -> tf.count_true (tf.less_equal c p) = 0%Z.
Proof.
  unfold tf.less_equal, tf.count_true.
  induction 1 as [|y c Hy _ IH]; simpl; [reflexivity|].
  rewrite IH.
  replace (Rleb y p) with false by (symmetry; now apply Rleb_gt).
  reflexivity.
Qed.

Lemma count_true_bounds (c : list bool) :
  (0 <= tf.count_true c <= Z.of_nat (List.length c))%Z.
Proof.
  induction c as [|b c IH]; simpl List.length; simpl tf.count_true; [lia|].
  destruct b; lia.
Qed.

(** On an increasing row the entries not above [p] are exactly the first
    [count_true] ones. *)
Lemma count_true_prefix (c : list R) (p : R) :
  StronglySorted Rlt c ->
  forall j x, nth_error c j = Some x ->
    (x <= p <-> (Z.of_nat j < tf.count_true (tf.less_equal c p))%Z).
Proof.
  induction 1 as [|a c Hc IH Ha]; intros j x Hj.
  - destruct j; discriminate.
  - cbn [tf.less_equal map tf.count_true fold_right].
    fold (tf.less_equal c p). fold (tf.count_true (tf.less_equal c p)).
    destruct (Rle_dec a p) as [Hap|Hap].
    + replace (Rleb a p) with true by (symmetry; now apply Rleb_le).
      destruct j as [|j]; simpl in Hj.
      * injection Hj as <-.
        pose proof (count_true_bounds (tf.less_equal c p)). split; [lia|auto].
      * rewrite (IH j x Hj). lia.
    + replace (Rleb a p) with false by (symmetry; apply Rleb_gt; lra).
      rewrite count_true_none.
      2:{ eapply Forall_impl; [|exact Ha]. simpl. intros; lra. }
      split; [|lia]. intros Hx. exfalso.
      destruct j as [|j]; simpl in Hj.
      * injection Hj as <-. lra.
      * apply nth_error_In in Hj. rewrite Forall_forall in Ha.
        specialize (Ha x Hj). lra.
Qed.

(** The same on a row that may repeat a value. *)
Lemma count_true_prefix_le (c : list R) (p : R) :
  StronglySorted Rle c ->
  forall j x, nth_error c j = Some x ->
    (x <= p <-> (Z.of_nat j < tf.count_true (tf.less_equal c p))%Z).
Proof.
  induction 1 as [|a c Hc IH Ha]; intros j x Hj.
  - destruct j; discriminate.
  - cbn [tf.less_equal map tf.count_true fold_right].
    fold (tf.less_equal c p). fold (tf.count_true (tf.less_equal c p)).
    destruct (Rle_dec a p) as [Hap|Hap].
    + replace (Rleb a p) with true by (symmetry; now apply Rleb_le).
      destruct j as [|j]; simpl in Hj.
      * injection Hj as <-.
        pose proof (count_true_bounds (tf.less_equal c p)). split; [lia|auto].
      * rewrite (IH j x Hj). lia.
    + replace (Rleb a p) with false by (symmetry; apply Rleb_gt; lra).
      rewrite count_true_none.
      2:{ eapply Forall_impl; [|exact Ha]. simpl. intros; lra. }
      split; [|lia]. intros Hx. exfalso.
      destruct j as [|j]; simpl in Hj.
      * injection Hj as <-. lra.
      * apply nth_error_In in Hj. rewrite Forall_forall in Ha.
        specialize (Ha x Hj). lra.
Qed.

Lemma count_true_all (c : list R) (p : R) :
  Forall (fun y => y <= p) c ->
  tf.count_true (tf.less_equal c p) = Z.of_nat (List.length c).
Proof.
  unfold tf.less_equal, tf.count_true.
  induction 1 as [|y c Hy _ IH]; [reflexivity|].
  cbn [map fold_right List.length]. rewrite IH.
  replace (Rleb y p) with true by (symmetry; now apply Rleb_le). lia.
Qed.

Lemma cumsum_from_increasing (l : list R) :
  Forall (fun q => 0 < q) l ->
  forall acc, StronglySorted Rlt (tf.cumsum_from acc l) /\
              Forall (fun y => acc < y) (tf.cumsum_from acc l).
Proof.
  induction 1 as [|x l Hx _ IH]; intros acc; simpl.
  - split; constructor.
  - destruct (IH (acc + x)) as [Hs Hf]. split.
    + constructor; assumption.
    + constructor; [lra|].
      eapply Forall_impl; [|exact Hf]. simpl. intros; lra.
Qed.

Lemma descending_nth_le (s : list R) :
  descending s ->
  forall i j x y, (i <= j)%nat ->
    nth_error s i = Some x -> nth_error s j = Some y -> y <= x.
Proof.
  unfold descending. induction 1 as [|a s Hs IH Ha]; intros i j x y Hij Hi Hj.
  - destruct i; discriminate.
  - destruct i as [|i]; simpl in Hi.
    + injection Hi as <-. destruct j as [|j]; simpl in Hj.
      * injection Hj as <-. lra.
      * apply nth_error_In in Hj. rewrite Forall_forall in Ha. auto.
    + destruct j as [|j]; [lia|]. simpl in Hj.
      apply (IH i j); [lia | assumption | assumption].
Qed.

(** ** Top-p filtering *)

Lemma cumulative_probs_increasing (logits : list R) :
  StronglySorted Rlt (tf.cumsum (tf.softmax (tf.sort logits))).
Proof. apply cumsum_from_increasing, softmax_pos. Qed.

Lemma cumulative_probs_length (logits : list R) :
  List.length (tf.cumsum (tf.softmax (tf.sort logits))) = List.length logits.
Proof.
  unfold tf.cumsum. now rewrite cumsum_from_length, softmax_length, sort_length.
Qed.

(** A prefix of [m + 1] candidates stays within [p] exactly when [m] is
    below the number of cumulative probabilities not above [p]. *)
Lemma prefix_mass_counted (logits : list R) (p : R) (m : nat) :
  (m < List.length logits)%nat ->
  (prefix_mass logits (S m) <= p <->
   (Z.of_nat m
    < tf.count_true
        (tf.less_equal (tf.cumsum (tf.softmax (tf.sort logits))) p))%Z).
Proof.
  intros Hm.
  apply (count_true_prefix _ p (cumulative_probs_increasing logits)).
  now apply cumulative_probs_nth.
Qed.

Lemma top_p_inversion (logits out : list R) (p : R) :
  top_p_logits logits p = Ok out ->
  exists b,
    nth_error (tf.sort logits) (Z.to_nat (top_p_index logits p)) = Some b /\
    out = map (mask b) logits.
Proof.
  unfold top_p_logits, tf.gather_nd.
  destruct (top_p_index logits p <? 0)%Z; [discriminate|].
  destruct (nth_error _ _) as [b|]; [|discriminate].
  cbn [rbind]. rewrite where_is_mask. intros H. injection H as <-.
  exists b. auto.
Qed.

(** The number of candidates [top_p_logits] keeps, best first. *)
Lemma top_p_kept (logits : list R) (p : R) :
  logits <> [] ->
  exists N b,
    (1 <= N <= List.length logits)%nat /\
    nth_error (tf.sort logits) (N - 1) = Some b /\
    top_p_logits logits p = Ok (map (mask b) logits) /\
    (prefix_mass logits N <= p \/ (N = 1%nat /\ p < prefix_mass logits 1)) /\
    (forall m, (N < m <= List.length logits)%nat -> p < prefix_mass logits m).
Proof.
  intros Hne.
  assert (HL : (1 <= List.length logits)%nat).
  { destruct logits; [congruence | simpl; lia]. }
  pose (n := tf.count_true
               (tf.less_equal (tf.cumsum (tf.softmax (tf.sort logits))) p)).
  assert (Hn : (0 <= n <= Z.of_nat (List.length logits))%Z).
  { pose proof (count_true_bounds
       (tf.less_equal (tf.cumsum (tf.softmax (tf.sort logits))) p)) as Hb.
    assert (Hlen : List.length
              (tf.less_equal (tf.cumsum (tf.softmax (tf.sort logits))) p)
            = List.length logits).
    { unfold tf.less_equal. rewrite length_map.
      apply cumulative_probs_length. }
    rewrite Hlen in Hb. exact Hb. }
  assert (Hidx : top_p_index logits p = Z.max (n - 1) 0) by reflexivity.
  pose (N := (Z.to_nat (Z.max (n - 1) 0) + 1)%nat).
  assert (HN : (1 <= N <= List.length logits)%nat) by (unfold N; lia).
  destruct (nth_error (tf.sort logits) (N - 1)) as [b|] eqn:Hb.
  2:{ apply nth_error_None in Hb. rewrite sort_length in Hb. lia. }
  exists N, b. split; [exact HN|]. split; [exact Hb|]. split.
  { unfold top_p_logits, tf.gather_nd. rewrite Hidx.
    destruct (Z.ltb_spec (Z.max (n - 1) 0) 0); [lia|].
    replace (Z.to_nat (Z.max (n - 1) 0)) with (N - 1)%nat by (unfold N; lia).
    rewrite Hb. cbn [rbind]. now rewrite where_is_mask. }
  split.
  - destruct (Z.eq_dec n 0) as [Hz|Hz].
    + right. assert (HN1 : N = 1%nat) by (unfold N; lia).
      split; [exact HN1|].
      pose proof (prefix_mass_counted logits p 0 ltac:(lia)) as Hc.
      fold n in Hc. destruct (Rle_dec (prefix_mass logits 1) p) as [Hle|Hgt];
        [apply Hc in Hle; lia | lra].
    + left. replace N with (S (N - 1)) by lia.
      apply prefix_mass_counted; [lia|]. fold n. unfold N. lia.
  - intros m Hm. destruct (Rle_dec (prefix_mass logits m) p) as [Hle|Hgt];
      [|lra].
    exfalso. replace m with (S (m - 1)) in Hle by lia.
    apply prefix_mass_counted in Hle; [|lia]. fold n in Hle.
    unfold N in Hm. lia.
Qed.

(** Masking below the least logit changes nothing. *)
Lemma mask_below_least (logits : list R) (b : R) :
  nth_error (tf.sort logits) (List.length logits - 1) = Some b ->
  map (mask b) logits = logits.
Proof.
  intros Hb. rewrite <- (map_id logits) at 2.
  apply map_ext_in. intros x Hx. apply mask_keeps.
  apply (Permutation_in _ (Permutation_sym (sort_perm logits))) in Hx.
  apply In_nth_error in Hx. destruct Hx as [i Hi].
  assert (Hlen : (i < List.length (tf.sort logits))%nat).
  { apply nth_error_Some. congruence. }
  rewrite sort_length in Hlen.
  apply (descending_nth_le _ (sort_descending logits)
                           i (List.length logits - 1)); [lia | easy | easy].
Qed.

Lemma prefix_mass_all (logits : list R) :
  logits <> [] -> prefix_mass logits (List.length logits) = 1.
Proof.
  intros Hne. unfold prefix_mass.
  rewrite <- (sort_length logits), <- softmax_length, firstn_all.
  apply softmax_sum. intros E. apply (f_equal (@List.length R)) in E.
  rewrite sort_length in E. destruct logits; [congruence | discriminate].
Qed.

(** [top_p_logits] is [top_p_logits_with] on the cumulative
    probabilities over the reals. *)
Lemma top_p_logits_exact (logits : list R) (p : R) :
  top_p_logits logits p = top_p_logits_with exact_cumulative logits p.
Proof. reflexivity. Qed.

Lemma exact_cumulative_length (logits : list R) :
  List.length (exact_cumulative (tf.sort logits)) = List.length logits.
Proof. apply cumulative_probs_length. Qed.

(** What [top_p_logits] keeps, in terms of the cumulative probabilities
    as they were computed. *)
Lemma top_p_kept_with (cumulative : list R -> list R)
    (logits : list R) (p : R) :
  logits <> [] ->
  List.length (cumulative (tf.sort logits)) = List.length logits ->
  exists N b,
    (1 <= N <= List.length logits)%nat /\
    nth_error (tf.sort logits) (N - 1) = Some b /\
    top_p_logits_with cumulative logits p = Ok (map (mask b) logits) /\
    Z.of_nat N
    = Z.max (tf.count_true (tf.less_equal (cumulative (tf.sort logits)) p))
            1.
Proof.
  intros Hne Hlen.
  assert (HL : (1 <= List.length logits)%nat).
  { destruct logits; [congruence | simpl; lia]. }
  pose (n := tf.count_true (tf.less_equal (cumulative (tf.sort logits)) p)).
  assert (Hn : (0 <= n <= Z.of_nat (List.length logits))%Z).
  { pose proof (count_true_bounds
       (tf.less_equal (cumulative (tf.sort logits)) p)) as Hb.
    unfold tf.less_equal in Hb. rewrite length_map, Hlen in Hb. exact Hb. }
  assert (Hidx : top_p_index_with cumulative logits p = Z.max (n - 1) 0)
    by reflexivity.
  pose (N := (Z.to_nat (Z.max (n - 1) 0) + 1)%nat).
  assert (HN : (1 <= N <= List.length logits)%nat) by (unfold N; lia).
  destruct (nth_error (tf.sort logits) (N - 1)) as [b|] eqn:Hb.
  2:{ apply nth_error_None in Hb. rewrite sort_length in Hb. lia. }
  exists N, b. split; [exact HN|]. split; [exact Hb|]. split.
  - unfold top_p_logits_with, tf.gather_nd. rewrite Hidx.
    destruct (Z.ltb_spec (Z.max (n - 1) 0) 0); [lia|].
    replace (Z.to_nat (Z.max (n - 1) 0)) with (N - 1)%nat by (unfold N; lia).
    rewrite Hb. cbn [rbind]. now rewrite where_is_mask.
  - fold n. unfold N. lia.
Qed.

(** C1, as amended.  On a non-empty row [top_p_logits] keeps the logits
    not below the [N]-th best score [b] and overwrites the others, where
    [N] is the number of cumulative softmax probabilities, as line 78
    computed them on the descending row, that do not exceed [p], and 1
    when there is none.  When these probabilities do not decrease along
    the row, the [N] best candidates are the longest prefix whose
    cumulative probability does not exceed [p], or the best candidate
    alone when even its probability exceeds [p].  The row is returned as
    it is when no cumulative probability exceeds [p]. *)
Theorem top_p_logits_retains (cumulative : list R -> list R)
    (logits : list R) (p : R) :
  logits <> [] ->
  List.length (cumulative (tf.sort logits)) = List.length logits ->
  exists N b,
    (1 <= N <= List.length logits)%nat /\
    nth_error (tf.sort logits) (N - 1) = Some b /\
    top_p_logits_with cumulative logits p = Ok (map (mask b) logits) /\
    masked_below b logits (map (mask b) logits) /\
    (count_gt b logits < N <= count_ge b logits)%nat /\
    Z.of_nat N
    = Z.max (tf.count_true (tf.less_equal (cumulative (tf.sort logits)) p))
            1 /\
    (StronglySorted Rle (cumulative (tf.sort logits)) ->
     ((forall j c, (j < N)%nat ->
                   nth_error (cumulative (tf.sort logits)) j = Some c ->
                   c <= p) \/
      (N = 1%nat /\
       Forall (fun c => p < c) (cumulative (tf.sort logits)))) /\
     (forall j c, (N <= j)%nat ->
                  nth_error (cumulative (tf.sort logits)) j = Some c ->
                  p < c)) /\
    (Forall (fun c => c <= p) (cumulative (tf.sort logits)) ->
     top_p_logits_with cumulative logits p = Ok logits).
Proof.
  intros Hne Hlen.
  destruct (top_p_kept_with cumulative logits p Hne Hlen)
    as (N & b & HN & Hb & Hout & Hcount).
  exists N, b. split; [exact HN|]. split; [exact Hb|]. split; [exact Hout|].
  split; [apply map_masked_below|].
  split.
  { destruct (descending_count _ (sort_descending logits) _ _ Hb) as [Hgt Hge].
    unfold count_gt, count_ge in Hgt, Hge.
    rewrite (count_perm _ _ _ (sort_perm logits)) in Hgt.
    rewrite (count_perm _ _ _ (sort_perm logits)) in Hge.
    fold (count_gt b logits) in Hgt. fold (count_ge b logits) in Hge. lia. }
  split; [exact Hcount|]. split.
  - intros Hsorted.
    pose proof (count_true_prefix_le _ p Hsorted) as Hprefix.
    set (c := cumulative (tf.sort logits)) in *.
    set (n := tf.count_true (tf.less_equal c p)) in *.
    split.
    + destruct (Z.eq_dec n 0) as [Hz|Hz].
      * right. split; [lia|]. apply Forall_forall. intros x Hx.
        apply In_nth_error in Hx. destruct Hx as [j Hj].
        destruct (Rle_dec x p) as [Hle|Hgt]; [|lra].
        apply (Hprefix j x Hj) in Hle. lia.
      * left. intros j x Hj Hx. apply (Hprefix j x Hx).
        pose proof (count_true_bounds (tf.less_equal c p)) as Hbd.
        fold n in Hbd. lia.
    + intros j x Hj Hx. destruct (Rle_dec x p) as [Hle|Hgt]; [|lra].
      apply (Hprefix j x Hx) in Hle. lia.
  - intros Hall. rewrite Hout. f_equal. apply mask_below_least.
    rewrite (count_true_all _ _ Hall), Hlen in Hcount.
    replace (List.length logits - 1)%nat with (N - 1)%nat by lia.
    exact Hb.
Qed.

Lemma top_p_logits_retains_witness :
  [1; 0] <> [] /\
  List.length (exact_cumulative (tf.sort [1; 0])) = List.length [1; 0]%R /\
  exists N b,
    (1 <= N <= List.length [1; 0]%R)%nat /\
    nth_error (tf.sort [1; 0]) (N - 1) = Some b /\
    top_p_logits_with exact_cumulative [1; 0] (9 / 10)
    = Ok (map (mask b) [1; 0]) /\
    masked_below b [1; 0] (map (mask b) [1; 0]) /\
    (count_gt b [1; 0]%R < N <= count_ge b [1; 0]%R)%nat /\
    Z.of_nat N
    = Z.max (tf.count_true
               (tf.less_equal (exact_cumulative (tf.sort [1; 0])) (9 / 10)))
            1 /\
    (StronglySorted Rle (exact_cumulative (tf.sort [1; 0])) ->
     ((forall j c, (j < N)%nat ->
                   nth_error (exact_cumulative (tf.sort [1; 0])) j = Some c ->
                   c <= 9 / 10) \/
      (N = 1%nat /\
       Forall (fun c => 9 / 10 < c) (exact_cumulative (tf.sort [1; 0])))) /\
     (forall j c, (N <= j)%nat ->
                  nth_error (exact_cumulative (tf.sort [1; 0])) j = Some c ->
                  9 / 10 < c)) /\
    (Forall (fun c => c <= 9 / 10) (exact_cumulative (tf.sort [1; 0])) ->
     top_p_logits_with exact_cumulative [1; 0] (9 / 10) = Ok [1; 0]).
Proof.
  assert (H : [1; 0] <> []) by discriminate.
  split; [exact H|]. split; [exact (exact_cumulative_length [1; 0])|].
  exact (top_p_logits_retains exact_cumulative [1; 0] (9 / 10) H
           (exact_cumulative_length [1; 0])).
Defined.

(** The row [[1; 0]] filtered with [p = 0.9]. *)
Lemma sort_pair : tf.sort [1; 0] = [1; 0].
Proof. simpl. rcompare. reflexivity. Qed.

Lemma prefix_mass_pair_1 : prefix_mass [1; 0] 1 < 9 / 10.
Proof.
  unfold prefix_mass. rewrite sort_pair. unfold tf.softmax. simpl.
  rewrite exp_0. pose proof (exp_pos 1) as Hpos. pose proof exp_le_3 as H3.
  rewrite Rplus_0_r.
  assert (Hle : exp 1 / (exp 1 + (1 + 0)) <= 3 / 4).
  { apply Rdiv_le_iff; lra. }
  lra.
Qed.

Lemma top_p_pair : top_p_logits [1; 0] (9 / 10) = Ok [1; sentinel].
Proof.
  assert (Hne : [1; 0] <> []) by discriminate.
  destruct (top_p_kept [1; 0] (9 / 10) Hne)
    as (N & b & HN & Hb & Hout & Hin & _).
  simpl in HN.
  assert (HN1 : N = 1%nat).
  { destruct Hin as [Hle|[H1 _]]; [|exact H1].
    destruct (Nat.eq_dec N 1) as [E|E]; [exact E|].
    assert (N = List.length [1; 0]%R) as -> by (simpl; lia).
    rewrite prefix_mass_all in Hle by exact Hne. lra. }
  subst N. rewrite sort_pair in Hb. simpl in Hb. injection Hb as <-.
  rewrite Hout. simpl. unfold mask. rcompare. reflexivity.
Qed.

Lemma unmasked_pair : unmasked [1; sentinel] = 1%nat.
Proof.
  unfold unmasked, count. simpl.
  destruct (Req_dec_T 1 sentinel) as [E|_]; [unfold sentinel in E; lra|].
  destruct (Req_dec_T sentinel sentinel) as [_|E]; [reflexivity|].
  contradiction.
Qed.

(** C1, as stated, fails: with [p = 0.9] the row [[1; 0]] keeps its best
    logit only, whose probability is below [p]; the shortest prefix that
    reaches [p] has both candidates. *)
Lemma top_p_logits_stops_short :
  top_p_logits [1; 0] (9 / 10) = Ok [1; sentinel] /\
  unmasked [1; sentinel] = 1%nat /\
  prefix_mass [1; 0] 1 < 9 / 10 /\
  smallest_nucleus [1; 0] (9 / 10) 2.
Proof.
  split; [exact top_p_pair|]. split; [exact unmasked_pair|].
  split; [exact prefix_mass_pair_1|].
  unfold smallest_nucleus. split.
  - change 2%nat with (List.length [1; 0]%R).
    rewrite prefix_mass_all by discriminate. lra.
  - intros m Hm. destruct m as [|[|m]]; [|exact prefix_mass_pair_1|lia].
    unfold prefix_mass. simpl. lra.
Qed.

(** ** Both filters only mask *)

(** C10.  Whatever [k] or [p], the row a filter returns has the length and
    the order of the logits, and each entry is the logit it had or the
    sentinel.  Unless top-k is bypassed, a boundary score [b] taken from
    the sorted logits decides: every logit not below [b], ties with [b]
    included, is kept as it is, and every logit strictly below [b] is
    overwritten. *)
Theorem filters_mask_only (logits out : list R) :
  (forall k, top_k_logits logits k = Ok out ->
     mask_only logits out /\
     ((k = 0%nat /\ out = logits) \/
      exists b, nth_error (tf.sort logits) (k - 1) = Some b /\
                masked_below b logits out)) /\
  (forall p, top_p_logits logits p = Ok out ->
     mask_only logits out /\
     exists b,
       nth_error (tf.sort logits) (Z.to_nat (top_p_index logits p)) = Some b /\
       masked_below b logits out).
Proof.
  split.
  - intros k H. apply top_k_inversion in H.
    destruct H as [[-> ->]|[_ (b & Hb & ->)]].
    + split; [apply mask_only_refl | left; auto].
    + split; [apply map_mask_only|]. right. exists b.
      split; [exact Hb | apply map_masked_below].
  - intros p H. apply top_p_inversion in H. destruct H as (b & Hb & ->).
    split; [apply map_mask_only|]. exists b.
    split; [exact Hb | apply map_masked_below].
Qed.

Lemma filters_mask_only_witness :
  (mask_only [1; 1] [1; 1] /\
   ((1%nat = 0%nat /\ [1; 1] = [1; 1]) \/
    exists b, nth_error (tf.sort [1; 1]) (1 - 1) = Some b /\
              masked_below b [1; 1] [1; 1])) /\
  (mask_only [1; 0] [1; sentinel] /\
   exists b,
     nth_error (tf.sort [1; 0]) (Z.to_nat (top_p_index [1; 0] (9 / 10)))
     = Some b /\
     masked_below b [1; 0] [1; sentinel]).
Proof.
  split.
  - exact (proj1 (filters_mask_only [1; 1] [1; 1]) 1%nat top_k_tied_pair).
  - exact (proj2 (filters_mask_only [1; 0] [1; sentinel]) (9 / 10)
                 top_p_pair).
Defined.

(** ** The position [tf.argmax] returns *)

Lemma argmax_from_first_max (l : list R) :
  forall pre best besti,
    first_max pre besti best ->
    exists m,
      first_max (pre ++ l)
                (tf.argmax_from best besti (List.length pre) l) m.
Proof.
  induction l as [|x l IH]; intros pre best besti Hpre.
  - rewrite app_nil_r. exists best. exact Hpre.
  - cbn [tf.argmax_from]. destruct Hpre as (Hnth & Hall & Hbefore).
    assert (Hbi : (besti < List.length pre)%nat).
    { apply nth_error_Some. congruence. }
    replace (pre ++ x :: l) with ((pre ++ [x]) ++ l)
      by (now rewrite <- app_assoc).
    replace (S (List.length pre)) with (List.length (pre ++ [x]))
      by (rewrite length_app; simpl; lia).
    destruct (Rlt_dec best x) as [Hlt|Hge].
    + replace (Rltb best x) with true by (symmetry; now apply Rltb_lt).
      apply IH. split; [|split].
      * rewrite nth_error_app2 by lia. now rewrite Nat.sub_diag.
      * apply Forall_app. split.
        -- eapply Forall_impl; [|exact Hall]. simpl. intros; lra.
        -- constructor; [lra | constructor].
      * intros j y Hj Hy. rewrite nth_error_app1 in Hy by exact Hj.
        apply nth_error_In in Hy. rewrite Forall_forall in Hall.
        specialize (Hall y Hy). lra.
    + replace (Rltb best x) with false by (symmetry; apply Rltb_ge; lra).
      apply IH. split; [|split].
      * now rewrite nth_error_app1 by exact Hbi.
      * apply Forall_app. split; [exact Hall|].
        constructor; [lra | constructor].
      * intros j y Hj Hy. rewrite nth_error_app1 in Hy by lia. eauto.
Qed.

Lemma argmax_first_max (l : list R) :
  l <> [] -> exists m, first_max l (tf.argmax l) m.
Proof.
  destruct l as [|x l]; [congruence|]. intros _.
  apply (argmax_from_first_max l [x] x 0%nat).
  split; [reflexivity|]. split; [repeat constructor; lra|].
  intros j y Hj. lia.
Qed.

Lemma first_max_unique (l : list R) (i j : nat) (m m' : R) :
  first_max l i m -> first_max l j m' -> i = j /\ m = m'.
Proof.
  intros (Hi & Hall & Hbefore) (Hj & Hall' & Hbefore').
  assert (Hmm : m = m').
  { rewrite Forall_forall in Hall, Hall'.
    pose proof (Hall _ (nth_error_In _ _ Hj)).
    pose proof (Hall' _ (nth_error_In _ _ Hi)). lra. }
  subst m'. split; [|reflexivity].
  destruct (Nat.lt_trichotomy i j) as [H|[H|H]]; [|exact H|].
  - specialize (Hbefore' i m H Hi). lra.
  - specialize (Hbefore j m H Hj). lra.
Qed.

Lemma argmax_is (l : list R) (i : nat) (m : R) :
  first_max l i m -> tf.argmax l = i.
Proof.
  intros H. assert (Hne : l <> []).
  { destruct H as (Hi & _). destruct l; [destruct i; discriminate|].
    discriminate. }
  destruct (argmax_first_max l Hne) as (m' & H').
  now destruct (first_max_unique _ _ _ _ _ H' H).
Qed.

(** Masking below a score of the row keeps the first maximum where it is,
    as long as the maximum is above the sentinel. *)
Lemma first_max_mask (l : list R) (i : nat) (m b : R) :
  first_max l i m -> b <= m -> sentinel < m ->
  first_max (map (mask b) l) i m.
Proof.
  intros (Hi & Hall & Hbefore) Hb Hs. split; [|split].
  - rewrite nth_error_map, Hi. simpl. f_equal. now apply mask_keeps.
  - rewrite Forall_map. eapply Forall_impl; [|exact Hall]. simpl.
    intros x Hx. destruct (mask_cases b x) as [-> | ->]; lra.
  - intros j y Hj Hy. rewrite nth_error_map in Hy.
    destruct (nth_error l j) as [x|] eqn:Hx; [|discriminate].
    injection Hy as <-. specialize (Hbefore j x Hj Hx).
    destruct (mask_cases b x) as [-> | ->]; lra.
Qed.

Lemma first_max_above (l : list R) (i : nat) (m : R) :
  first_max l i m -> Exists (fun x => sentinel < x) l -> sentinel < m.
Proof.
  intros (_ & Hall & _) Hex. apply Exists_exists in Hex.
  destruct Hex as (x & Hx & Hs). rewrite Forall_forall in Hall.
  specialize (Hall x Hx). lra.
Qed.

Lemma sorted_entry_le_max (l : list R) (n i : nat) (b m : R) :
  nth_error (tf.sort l) n = Some b -> first_max l i m -> b <= m.
Proof.
  intros Hb (_ & Hall & _). apply nth_error_In in Hb.
  apply (Permutation_in _ (sort_perm l)) in Hb.
  rewrite Forall_forall in Hall. auto.
Qed.

(** ** The decoding loop *)

Lemma steps_executed_app (p q : list st_event) :
  steps_executed (p ++ q) = (steps_executed p + steps_executed q)%nat.
Proof. unfold steps_executed. now rewrite filter_app, length_app. Qed.

Section DecoderFacts.

Context {Image Attn Mask Gen : Type}.
Variable create_target_masks : list Z -> Mask.
Variable categorical : list R -> Z -> Gen -> Z * Gen.
Variable truediv : list R -> R -> list R.
Variable inp_img : Image.
Variable transformer : @Transformer Image Attn Mask.
Variables (temperature : R) (top_k : nat) (top_p : R).
Variables (options : string) (seed : Z) (MAX_LENGTH : nat).

Local Abbreviation step :=
  (decode_step create_target_masks categorical truediv inp_img transformer
               temperature top_k top_p options seed MAX_LENGTH).
Local Abbreviation loop :=
  (decode_loop create_target_masks categorical truediv inp_img transformer
               temperature top_k top_p options seed MAX_LENGTH).
Local Abbreviation runs :=
  (decodes create_target_masks categorical truediv inp_img transformer
           temperature top_k top_p options seed MAX_LENGTH).
Local Abbreviation eval tokenizer :=
  (evaluate create_target_masks categorical truediv inp_img tokenizer
            transformer temperature top_k top_p options seed MAX_LENGTH).

(** Take the body of the loop apart, one call after the other. *)
Ltac open_step :=
  unfold decode_step, bind, lift, emit, ret, raise;
  destruct (transformer _ _ _ _) as [predictions attention_weights];
  cbn [page rng];
  destruct (last_position predictions) as [row|?] eqn:Hlast;
  cbn [page rng];
  [destruct (top_k_logits (truediv row temperature) top_k)
     as [kept|?] eqn:Hk;
   cbn [page rng];
   [destruct (top_p_logits kept top_p) as [nucleus|?] eqn:Hp;
    cbn [page rng];
    [destruct (String.eqb options "Greedy");
     [|destruct (String.eqb options "Sampling");
       [destruct (categorical _ _ _)|]]; cbn [page rng]
    |]
   |]
  |].

(** Each step reports its progress first and shows at most one more
    line. *)
Lemma step_page i out w r w' :
  step i out w = (r, w') ->
  exists ev,
    page w' = page w ++ StProgress (INR i / INR MAX_LENGTH) :: ev /\
    (ev = [] \/ ev = [StWrite "SHOULD NOT HAPPEN"]).
Proof.
  open_step; intros H; injection H as <- <-; cbn [page];
    try (exists []; split; [reflexivity | now left]).
  exists [StWrite "SHOULD NOT HAPPEN"]. rewrite <- app_assoc.
  split; [reflexivity | now right].
Qed.

Lemma step_steps i out w r w' :
  step i out w = (r, w') ->
  steps_executed (page w') = S (steps_executed (page w)).
Proof.
  intros H. apply step_page in H. destruct H as (ev & -> & Hev).
  rewrite steps_executed_app.
  destruct Hev as [-> | ->]; unfold steps_executed; simpl; lia.
Qed.

(** *** The loop, one iteration at a time *)

Lemma loop_nil out last w :
  loop [] out last w
  = match last with
    | Some (a, i) => (Ok (tl out, a, i), bar_emptied w)
    | None => (Raise UnboundLocalError, bar_emptied w)
    end.
Proof. destruct last as [[a i]|]; reflexivity. Qed.

Lemma loop_cons i rest out last w :
  loop (i :: rest) out last w
  = match step i out w with
    | (Ok (t, a), w1) =>
        if (t =? stop_token)%Z then (Ok (tl out, a, i), bar_emptied w1)
        else loop rest (out ++ [t]) (Some (a, i)) w1
    | (Raise e, w1) => (Raise e, w1)
    end.
Proof.
  cbn [decode_loop]. unfold bind at 1.
  destruct (step i out w) as [[[t a]|e] w1]; [|reflexivity].
  destruct (t =? stop_token)%Z; reflexivity.
Qed.

Lemma evaluate_unfold tokenizer w :
  eval tokenizer w
  = loop (seq 0 MAX_LENGTH) [token_to_id tokenizer "<s>"] None
         (World (page w ++ [StProgressNew 0]) (rng w)).
Proof.
  unfold evaluate, range. rewrite Nat2Z.id. reflexivity.
Qed.

(** *** What a run that returns has done *)

Lemma runs_steps s out w ts wk :
  runs s out w ts wk ->
  steps_executed (page wk)
  = (steps_executed (page w) + List.length ts)%nat.
Proof.
  induction 1 as [|i out w t a w1 ts w' Hs Ht _ IH]; simpl; [lia|].
  apply step_steps in Hs. lia.
Qed.

Lemma runs_no_stop s out w ts wk :
  runs s out w ts wk -> ~ In stop_token ts.
Proof.
  induction 1 as [|i out w t a w1 ts w' Hs Ht _ IH]; simpl; [tauto|].
  intros [E|E]; [congruence | tauto].
Qed.

(** A loop that returns has appended the ids of a run, then either met
    the stop token at step [i] or used up its indices. *)
Lemma loop_returns n :
  forall s out last w res a i w',
    bound_before s last ->
    loop (seq s n) out last w = (Ok (res, a, i), w') ->
    exists ts wk,
      res = tl (out ++ ts) /\
      runs s out w ts wk /\
      ((i = (s + List.length ts)%nat /\ (S i <= s + n)%nat /\
        exists w1, step i (out ++ ts) wk = (Ok (stop_token, a), w1) /\
                   w' = bar_emptied w1)
       \/
       (List.length ts = n /\ S i = (s + n)%nat /\ w' = bar_emptied wk)).
Proof.
  induction n as [|n IH]; intros s out last w res a i w' Hlast H.
  - cbn [seq] in H. rewrite loop_nil in H.
    destruct last as [[a0 i0]|]; [|discriminate].
    injection H as <- <- <- <-. simpl in Hlast.
    exists [], w. rewrite app_nil_r.
    split; [reflexivity|]. split; [constructor|].
    right. simpl. repeat split; lia.
  - cbn [seq] in H. rewrite loop_cons in H.
    destruct (step s out w) as [[[t a1]|e] w1] eqn:Hs; [|discriminate].
    destruct (Z.eqb_spec t stop_token) as [Ht|Ht].
    + injection H as <- <- <- <-. subst t.
      exists [], w. rewrite app_nil_r.
      split; [reflexivity|]. split; [constructor|].
      left. simpl. split; [lia|]. split; [lia|].
      exists w1. split; [exact Hs | reflexivity].
    + apply IH in H; [|reflexivity].
      destruct H as (ts & wk & Hres & Hruns & Hend).
      exists (t :: ts), wk.
      replace (out ++ t :: ts) with ((out ++ [t]) ++ ts)
        by (now rewrite <- app_assoc).
      split; [exact Hres|].
      split; [econstructor; eassumption|].
      simpl List.length.
      destruct Hend as [(Hi & Hle & w2 & Hstop & Hw')|(Hlen & Hi & Hw')].
      * left. split; [lia|]. split; [lia|]. exists w2. auto.
      * right. repeat split; [lia | lia | exact Hw'].
Qed.

(** As soon as a step selects the stop token the loop returns, with the
    ids appended so far and the index of that step. *)
Lemma loop_stops s out w ts wk :
  runs s out w ts wk ->
  forall n last a w1,
    (List.length ts < n)%nat ->
    step (s + List.length ts) (out ++ ts) wk = (Ok (stop_token, a), w1) ->
    loop (seq s n) out last w
    = (Ok (tl (out ++ ts), a, (s + List.length ts)%nat), bar_emptied w1).
Proof.
  induction 1 as [i out w|i out w t a0 w2 ts w' Hs Ht _ IH];
    intros n last a w1 Hn Hstop; (destruct n as [|n]; [simpl in Hn; lia|]);
    cbn [seq]; rewrite loop_cons.
  - simpl in Hstop. rewrite Nat.add_0_r, app_nil_r in *.
    rewrite Hstop. simpl. reflexivity.
  - rewrite Hs. destruct (Z.eqb_spec t stop_token); [contradiction|].
    simpl List.length in *.
    replace (out ++ t :: ts) with ((out ++ [t]) ++ ts) in *
      by (now rewrite <- app_assoc).
    replace (i + S (List.length ts))%nat
      with (S i + List.length ts)%nat in * by lia.
    apply IH; [lia | exact Hstop].
Qed.

Lemma loop_steps_le indices :
  forall out last w r w',
    loop indices out last w = (r, w') ->
    (steps_executed (page w')
     <= steps_executed (page w) + List.length indices)%nat.
Proof.
  induction indices as [|i rest IH]; intros out last w r w' H.
  - rewrite loop_nil in H.
    destruct last as [[a0 i0]|]; injection H as <- <-;
      unfold bar_emptied; cbn [page]; rewrite steps_executed_app;
      unfold steps_executed; simpl; lia.
  - rewrite loop_cons in H.
    destruct (step i out w) as [[[t a1]|e] w1] eqn:Hs.
    + apply step_steps in Hs.
      destruct (t =? stop_token)%Z.
      * injection H as <- <-. unfold bar_emptied. cbn [page].
        rewrite steps_executed_app. unfold steps_executed at 2.
        simpl. lia.
      * apply IH in H. simpl. lia.
    + apply step_steps in Hs. injection H as <- <-. simpl. lia.
Qed.

(** Everything a loop adds to the page is a decoder event. *)
Lemma loop_events indices :
  forall out last w r w',
    loop indices out last w = (r, w') ->
    exists ev, page w' = page w ++ ev /\ Forall decoder_event ev.
Proof.
  induction indices as [|i rest IH]; intros out last w r w' H.
  - rewrite loop_nil in H. exists [StEmpty].
    destruct last as [[a0 i0]|]; injection H as <- <-;
      (split; [reflexivity | repeat constructor]).
  - rewrite loop_cons in H.
    destruct (step i out w) as [[[t a1]|e] w1] eqn:Hs;
      apply step_page in Hs; destruct Hs as (ev1 & Hw1 & Hev1);
      assert (H1 : Forall decoder_event
                     (StProgress (INR i / INR MAX_LENGTH) :: ev1))
        by (destruct Hev1 as [-> | ->]; repeat constructor).
    + destruct (t =? stop_token)%Z.
      * injection H as <- <-. unfold bar_emptied. cbn [page].
        rewrite Hw1, <- app_assoc. eexists. split; [reflexivity|].
        apply Forall_app. split; [exact H1 | repeat constructor].
      * apply IH in H. destruct H as (ev2 & Hw' & Hev2).
        rewrite Hw', Hw1, <- app_assoc. eexists. split; [reflexivity|].
        apply Forall_app. now split.
    + injection H as <- <-. rewrite Hw1. eauto.
Qed.

(** A run of [evaluate] that returns, taken apart. *)
Lemma evaluate_returns tokenizer w res a i w' :
  eval tokenizer w = (Ok (res, a, i), w') ->
  exists wk,
    runs 0 [token_to_id tokenizer "<s>"]
         (World (page w ++ [StProgressNew 0]) (rng w)) res wk /\
    ((i = List.length res /\ (i < MAX_LENGTH)%nat /\
      exists w1,
        step i (token_to_id tokenizer "<s>" :: res) wk
        = (Ok (stop_token, a), w1) /\
        w' = bar_emptied w1)
     \/
     (List.length res = MAX_LENGTH /\ S i = MAX_LENGTH /\
      w' = bar_emptied wk)).
Proof.
  rewrite evaluate_unfold. intros H.
  apply loop_returns in H; [|reflexivity].
  destruct H as (ts & wk & -> & Hruns & Hend). cbn [app tl] in *.
  exists wk. split; [exact Hruns|].
  destruct Hend as [(-> & Hle & Hstop)|(Hlen & Hi & Hw')].
  - left. simpl in *. split; [reflexivity|]. split; [lia | exact Hstop].
  - right. simpl in Hi. auto.
Qed.

(** C3.  [evaluate] always comes to an end, having entered at most
    [MAX_LENGTH] decoding steps; and as soon as a step selects the stop
    token it returns the ids selected so far, with no further step. *)
Theorem evaluate_terminates (tokenizer : Tokenizer) (w : world Gen) :
  (exists r w',
      eval tokenizer w = (r, w') /\
      (steps_executed (page w')
       <= steps_executed (page w) + MAX_LENGTH)%nat) /\
  (forall ts wk a w1,
      runs 0 [token_to_id tokenizer "<s>"]
           (World (page w ++ [StProgressNew 0]) (rng w)) ts wk ->
      (List.length ts < MAX_LENGTH)%nat ->
      step (List.length ts) (token_to_id tokenizer "<s>" :: ts) wk
      = (Ok (stop_token, a), w1) ->
      eval tokenizer w = (Ok (ts, a, List.length ts), bar_emptied w1) /\
      steps_executed (page (bar_emptied w1))
      = (steps_executed (page w) + List.length ts + 1)%nat).
Proof.
  split.
  - destruct (eval tokenizer w) as [r w'] eqn:H. exists r, w'.
    split; [reflexivity|].
    rewrite evaluate_unfold in H. apply loop_steps_le in H.
    rewrite length_seq in H. cbn [page] in H.
    rewrite steps_executed_app in H. unfold steps_executed at 3 in H.
    simpl in H. lia.
  - intros ts wk a w1 Hruns Hlen Hstop. split.
    + rewrite evaluate_unfold.
      apply (loop_stops _ _ _ _ _ Hruns MAX_LENGTH None a w1 Hlen Hstop).
    + apply runs_steps in Hruns. apply step_steps in Hstop.
      unfold bar_emptied. cbn [page] in *.
      rewrite steps_executed_app in *.
      unfold steps_executed at 2. unfold steps_executed at 3 in Hruns.
      simpl in *. lia.
Qed.

(** C4.  The sequence [evaluate] returns is the run of ids selected from
    step 0 on, the decoder input having started as the start token
    alone: the start token is not part of it, no entry is the stop
    token, and there are at most [MAX_LENGTH] entries.  With
    [MAX_LENGTH = 1] and a first step that selects an id other than the
    stop token, that id is the whole sequence. *)
Theorem evaluate_result_tokens (tokenizer : Tokenizer) (w : world Gen)
    (res : list Z) (a : Attn) (i : nat) (w' : world Gen) :
  eval tokenizer w = (Ok (res, a, i), w') ->
  (exists wk,
      runs 0 [token_to_id tokenizer "<s>"]
           (World (page w ++ [StProgressNew 0]) (rng w)) res wk) /\
  ~ In stop_token res /\
  (List.length res <= MAX_LENGTH)%nat /\
  (MAX_LENGTH = 1%nat ->
   forall t a0 w1,
     step 0 [token_to_id tokenizer "<s>"]
          (World (page w ++ [StProgressNew 0]) (rng w))
     = (Ok (t, a0), w1) ->
     t <> stop_token ->
     res = [t] /\ List.length res = 1%nat).
Proof.
  intros H. pose proof (evaluate_returns _ _ _ _ _ _ H) as (wk & Hruns & Hend).
  split; [eauto|]. split; [eapply runs_no_stop; eassumption|].
  split; [destruct Hend as [(? & ? & _)|(? & _)]; lia|].
  intros Hmax t a0 w1 Hs Ht.
  rewrite evaluate_unfold in H.
  replace (seq 0 MAX_LENGTH) with [0%nat] in H
    by (rewrite Hmax; reflexivity).
  rewrite loop_cons, Hs in H.
  destruct (Z.eqb_spec t stop_token); [contradiction|].
  rewrite loop_nil in H. injection H as <- _ _ _. auto.
Qed.

(** C5, as amended.  The third component is the index of the last
    decoding step entered, one less than the number of steps executed,
    whether the loop met the stop token or reached [MAX_LENGTH]: it
    equals the number of returned tokens in the first case and is one
    less in the second. *)
Theorem evaluate_step_count (tokenizer : Tokenizer) (w : world Gen)
    (res : list Z) (a : Attn) (i : nat) (w' : world Gen) :
  eval tokenizer w = (Ok (res, a, i), w') ->
  steps_executed (page w') = (steps_executed (page w) + i + 1)%nat /\
  ((i = List.length res /\ (i < MAX_LENGTH)%nat) \/
   (List.length res = MAX_LENGTH /\ S i = MAX_LENGTH)).
Proof.
  intros H. apply evaluate_returns in H. destruct H as (wk & Hruns & Hend).
  apply runs_steps in Hruns. cbn [page] in Hruns.
  rewrite steps_executed_app in Hruns.
  unfold steps_executed at 3 in Hruns. simpl in Hruns.
  destruct Hend as [(Hi & Hlt & w1 & Hstop & ->)|(Hlen & Hi & ->)];
    unfold bar_emptied; cbn [page]; rewrite steps_executed_app;
    unfold steps_executed at 2; simpl.
  - apply step_steps in Hstop. split; [lia | left; auto].
  - split; [lia | right; auto].
Qed.

End DecoderFacts.

(** ** The quotient by the temperature *)

Section QuotientFacts.

Context {Image Attn Mask Gen : Type}.
Variable create_target_masks : list Z -> Mask.
Variable categorical : list R -> Z -> Gen -> Z * Gen.
Variable inp_img : Image.
Variable transformer : @Transformer Image Attn Mask.
Variables (temperature : R) (top_k : nat) (top_p : R).
Variables (options : string) (seed : Z) (MAX_LENGTH : nat).

Local Abbreviation step_with truediv :=
  (decode_step create_target_masks categorical truediv inp_img transformer
               temperature top_k top_p options seed MAX_LENGTH).
Local Abbreviation loop_with truediv :=
  (decode_loop create_target_masks categorical truediv inp_img transformer
               temperature top_k top_p options seed MAX_LENGTH).
Local Abbreviation evaluate_with truediv tokenizer :=
  (evaluate create_target_masks categorical truediv inp_img tokenizer
            transformer temperature top_k top_p options seed MAX_LENGTH).




End QuotientFacts.

(** ** The decoder on the stand-ins *)

Lemma map_div_1 (l : list R) : map (fun x => x / 1) l = l.
Proof.
  rewrite <- (map_id l) at 2. apply map_ext. intros x. lra.
Qed.

Lemma demo_quotient_1 (at_zero : list R -> list R) (row : list R) :
  quotient_with at_zero row 1 = row.
Proof.
  unfold quotient_with. destruct (Req_dec_T 1 0) as [E|_]; [lra|].
  apply map_div_1.
Qed.

(** In Greedy mode both filters leave the selection where it is: a step
    selects the position of the best scaled score. *)
Lemma greedy_step_selects {Image Attn Mask Gen : Type}
    (ctm : list Z -> Mask) (cat : list R -> Z -> Gen -> Z * Gen)
    (div : list R -> R -> list R)
    (img : Image) (tr : @Transformer Image Attn Mask)
    (t : R) (k : nat) (p : R) (sd : Z)
    (MAX i : nat) (out : list Z) (w : world Gen)
    (rows : list (list R)) (a : Attn) (row : list R) :
  tr img out false (ctm out) = (rows, a) ->
  last_position rows = Ok row ->
  (k <= List.length (div row t))%nat ->
  Exists (fun x => sentinel < x) (div row t) ->
  decode_step ctm cat div img tr t k p "Greedy" sd MAX i out w
  = (Ok (Z.of_nat (tf.argmax (div row t)), a),
     World (page w ++ [StProgress (INR i / INR MAX)]) (rng w)).
Proof.
  intros Htr Hlast Hk Hex.
  set (scaled := div row t) in *.
  assert (Hne : scaled <> []) by (destruct Hex; discriminate).
  destruct (argmax_first_max scaled Hne) as (m & Hm).
  pose proof (first_max_above _ _ _ Hm Hex) as Hs.
  assert (Hkept : exists kept,
             top_k_logits scaled k = Ok kept /\
             first_max kept (tf.argmax scaled) m).
  { destruct (Nat.eq_dec k 0) as [->|Hk0].
    - exists scaled. split; [apply top_k_zero | exact Hm].
    - destruct (top_k_in_range scaled k ltac:(lia)) as (b & Hb & Hout).
      exists (map (mask b) scaled). split; [exact Hout|].
      apply first_max_mask; [exact Hm | | exact Hs].
      eapply sorted_entry_le_max; eassumption. }
  destruct Hkept as (kept & Hk1 & Hk2).
  assert (Hkne : kept <> []).
  { destruct Hk2 as (Hn & _). destruct kept; [|discriminate].
    destruct (tf.argmax scaled); discriminate. }
  destruct (top_p_kept kept p Hkne) as (N & b' & _ & Hb' & Hp1 & _).
  assert (Hfinal : first_max (map (mask b') kept) (tf.argmax scaled) m).
  { apply first_max_mask; [exact Hk2 | | exact Hs].
    eapply sorted_entry_le_max; eassumption. }
  unfold decode_step, bind, lift, emit, ret. rewrite Htr, Hlast.
  fold scaled. rewrite Hk1, Hp1. rewrite String.eqb_refl.
  cbn [page rng]. now rewrite (argmax_is _ _ _ Hfinal).
Qed.

(** The same at temperature 1, where the quotient is the row. *)
Lemma greedy_step_plain {Image Attn Mask Gen : Type}
    (ctm : list Z -> Mask) (cat : list R -> Z -> Gen -> Z * Gen)
    (at_zero : list R -> list R)
    (img : Image) (tr : @Transformer Image Attn Mask)
    (k : nat) (p : R) (sd : Z)
    (MAX i : nat) (out : list Z) (w : world Gen)
    (rows : list (list R)) (a : Attn) (row : list R) :
  tr img out false (ctm out) = (rows, a) ->
  last_position rows = Ok row ->
  (k <= List.length row)%nat ->
  Exists (fun x => sentinel < x) row ->
  decode_step ctm cat (quotient_with at_zero) img tr 1 k p "Greedy" sd MAX
              i out w
  = (Ok (Z.of_nat (tf.argmax row), a),
     World (page w ++ [StProgress (INR i / INR MAX)]) (rng w)).
Proof.
  intros Htr Hlast Hk Hex.
  rewrite (greedy_step_selects _ _ _ _ _ _ _ _ _ _ _ _ _ rows a row);
    rewrite ?demo_quotient_1; auto.
Qed.

Lemma above_sentinel_head (x : R) (l : list R) :
  -1 < x -> Exists (fun y => sentinel < y) (x :: l).
Proof. intros H. constructor. unfold sentinel. lra. Qed.

Lemma argmax_stop : tf.argmax [0; 0; 1] = 2%nat.
Proof. simpl. rcompare. reflexivity. Qed.

Lemma argmax_three : tf.argmax [0; 0; 0; 1] = 3%nat.
Proof. simpl. rcompare. reflexivity. Qed.

Lemma stops_at_once_step MAX i out w :
  demo_step stops_at_once MAX i out w
  = (Ok (stop_token, tt),
     World (page w ++ [StProgress (INR i / INR MAX)]) (rng w)).
Proof.
  unfold demo_step, demo_quotient.
  rewrite (greedy_step_plain _ _ _ _ _ _ _ _ _ _ _ _
             [[0; 0; 1]] tt [0; 0; 1]);
    try reflexivity; [|simpl; lia|apply above_sentinel_head; lra].
  now rewrite argmax_stop.
Qed.

Lemma never_stops_step MAX i out w :
  demo_step never_stops MAX i out w
  = (Ok (3%Z, tt),
     World (page w ++ [StProgress (INR i / INR MAX)]) (rng w)).
Proof.
  unfold demo_step, demo_quotient.
  rewrite (greedy_step_plain _ _ _ _ _ _ _ _ _ _ _ _
             [[0; 0; 0; 1]] tt [0; 0; 0; 1]);
    try reflexivity; [|simpl; lia|apply above_sentinel_head; lra].
  now rewrite argmax_three.
Qed.

Lemma one_then_stop_first MAX i t w :
  demo_step one_then_stop MAX i [t] w
  = (Ok (3%Z, tt),
     World (page w ++ [StProgress (INR i / INR MAX)]) (rng w)).
Proof.
  unfold demo_step, demo_quotient.
  rewrite (greedy_step_plain _ _ _ _ _ _ _ _ _ _ _ _
             [[0; 0; 0; 1]] tt [0; 0; 0; 1]);
    try reflexivity; [|simpl; lia|apply above_sentinel_head; lra].
  now rewrite argmax_three.
Qed.

Lemma one_then_stop_second MAX i t u w :
  demo_step one_then_stop MAX i [t; u] w
  = (Ok (stop_token, tt),
     World (page w ++ [StProgress (INR i / INR MAX)]) (rng w)).
Proof.
  unfold demo_step, demo_quotient.
  rewrite (greedy_step_plain _ _ _ _ _ _ _ _ _ _ _ _
             [[0; 0; 1]] tt [0; 0; 1]);
    try reflexivity; [|simpl; lia|apply above_sentinel_head; lra].
  now rewrite argmax_stop.
Qed.

Lemma two_then_stop_first MAX i t w :
  demo_step two_then_stop MAX i [t] w
  = (Ok (3%Z, tt),
     World (page w ++ [StProgress (INR i / INR MAX)]) (rng w)).
Proof.
  unfold demo_step, demo_quotient.
  rewrite (greedy_step_plain _ _ _ _ _ _ _ _ _ _ _ _
             [[0; 0; 0; 1]] tt [0; 0; 0; 1]);
    try reflexivity; [|simpl; lia|apply above_sentinel_head; lra].
  now rewrite argmax_three.
Qed.

Lemma two_then_stop_second MAX i t u w :
  demo_step two_then_stop MAX i [t; u] w
  = (Ok (3%Z, tt),
     World (page w ++ [StProgress (INR i / INR MAX)]) (rng w)).
Proof.
  unfold demo_step, demo_quotient.
  rewrite (greedy_step_plain _ _ _ _ _ _ _ _ _ _ _ _
             [[0; 0; 0; 1]] tt [0; 0; 0; 1]);
    try reflexivity; [|simpl; lia|apply above_sentinel_head; lra].
  now rewrite argmax_three.
Qed.

Lemma two_then_stop_third MAX i t u v w :
  demo_step two_then_stop MAX i [t; u; v] w
  = (Ok (stop_token, tt),
     World (page w ++ [StProgress (INR i / INR MAX)]) (rng w)).
Proof.
  unfold demo_step, demo_quotient.
  rewrite (greedy_step_plain _ _ _ _ _ _ _ _ _ _ _ _
             [[0; 0; 1]] tt [0; 0; 1]);
    try reflexivity; [|simpl; lia|apply above_sentinel_head; lra].
  now rewrite argmax_stop.
Qed.

(** A model that stops at once, under a limit of one step. *)
Lemma stops_at_once_run :
  demo_evaluate stops_at_once 1 1 blank
  = (Ok ([], tt, 0%nat),
     World [StProgressNew 0; StProgress (INR 0 / INR 1); StEmpty] tt).
Proof.
  unfold demo_evaluate. rewrite evaluate_unfold. cbn [seq].
  rewrite loop_cons. fold (demo_step stops_at_once 1).
  rewrite stops_at_once_step. reflexivity.
Qed.

(** A model that never stops, under a limit of one step. *)
Lemma never_stops_run :
  demo_evaluate never_stops 1 1 blank
  = (Ok ([3%Z], tt, 0%nat),
     World [StProgressNew 0; StProgress (INR 0 / INR 1); StEmpty] tt).
Proof.
  unfold demo_evaluate. rewrite evaluate_unfold. cbn [seq].
  rewrite loop_cons. fold (demo_step never_stops 1).
  rewrite never_stops_step. cbn [Z.eqb stop_token Pos.eqb].
  rewrite loop_nil. reflexivity.
Qed.

(** A model that selects one id and then the stop token, under the limit
    of 128 steps [main] runs with. *)
Lemma one_then_stop_run (p : list st_event) :
  demo_evaluate one_then_stop 1 128 (World p tt)
  = (Ok ([3%Z], tt, 1%nat),
     World (p ++ [StProgressNew 0; StProgress (INR 0 / INR 128);
                  StProgress (INR 1 / INR 128); StEmpty]) tt).
Proof.
  unfold demo_evaluate. rewrite evaluate_unfold.
  change (seq 0 128) with (0%nat :: 1%nat :: seq 2 126).
  rewrite loop_cons. fold (demo_step one_then_stop 128).
  cbn [token_to_id demo_tokenizer].
  rewrite one_then_stop_first. cbn [Z.eqb stop_token Pos.eqb app].
  rewrite loop_cons. fold (demo_step one_then_stop 128).
  rewrite one_then_stop_second. cbn [Z.eqb stop_token Pos.eqb tl].
  unfold bar_emptied. cbn [page rng].
  repeat rewrite <- app_assoc. reflexivity.
Qed.

(** The same with the decoder input lengths as attention weights: the
    one of the second call is returned. *)
Lemma counting_heads_run :
  evaluate no_masks fixed_sampler demo_quotient tt demo_tokenizer
           counting_heads 1 0 1 "Greedy" 42 128 blank
  = (Ok ([3%Z], 2%nat, 1%nat),
     World [StProgressNew 0; StProgress (INR 0 / INR 128);
            StProgress (INR 1 / INR 128); StEmpty] tt).
Proof.
  rewrite evaluate_unfold.
  change (seq 0 128) with (0%nat :: 1%nat :: seq 2 126).
  rewrite loop_cons. cbn [token_to_id demo_tokenizer]. unfold demo_quotient.
  rewrite (greedy_step_plain _ _ _ _ _ _ _ _ _ _ _ _
             [[0; 0; 0; 1]] 1%nat [0; 0; 0; 1]);
    try reflexivity; [|simpl; lia|apply above_sentinel_head; lra].
  rewrite argmax_three. cbn [Z.eqb Z.of_nat Pos.of_succ_nat Pos.succ
                             stop_token Pos.eqb app].
  rewrite loop_cons.
  rewrite (greedy_step_plain _ _ _ _ _ _ _ _ _ _ _ _
             [[0; 0; 1]] 2%nat [0; 0; 1]);
    try reflexivity; [|simpl; lia|apply above_sentinel_head; lra].
  rewrite argmax_stop. cbn [Z.eqb Z.of_nat Pos.of_succ_nat Pos.succ
                            stop_token Pos.eqb tl].
  unfold bar_emptied, blank. cbn [page rng app]. reflexivity.
Qed.

(** A model that selects two ids and then the stop token, under the same
    limit. *)
Lemma two_then_stop_run (p : list st_event) :
  demo_evaluate two_then_stop 1 128 (World p tt)
  = (Ok ([3%Z; 3%Z], tt, 2%nat),
     World (p ++ [StProgressNew 0; StProgress (INR 0 / INR 128);
                  StProgress (INR 1 / INR 128);
                  StProgress (INR 2 / INR 128); StEmpty]) tt).
Proof.
  unfold demo_evaluate. rewrite evaluate_unfold.
  change (seq 0 128) with (0%nat :: 1%nat :: 2%nat :: seq 3 125).
  rewrite loop_cons. fold (demo_step two_then_stop 128).
  cbn [token_to_id demo_tokenizer].
  rewrite two_then_stop_first. cbn [Z.eqb stop_token Pos.eqb app].
  rewrite loop_cons. fold (demo_step two_then_stop 128).
  rewrite two_then_stop_second. cbn [Z.eqb stop_token Pos.eqb app].
  rewrite loop_cons. fold (demo_step two_then_stop 128).
  rewrite two_then_stop_third. cbn [Z.eqb stop_token Pos.eqb tl].
  unfold bar_emptied. cbn [page rng].
  repeat rewrite <- app_assoc. reflexivity.
Qed.

Lemma evaluate_terminates_witness :
  decodes no_masks fixed_sampler demo_quotient tt stops_at_once 1 0 1
          "Greedy" 42 128
          0 [0%Z] (World [StProgressNew 0] tt) [] (World [StProgressNew 0] tt)
  /\ (List.length (@nil Z) < 128)%nat
  /\ demo_step stops_at_once 128 0 [0%Z] (World [StProgressNew 0] tt)
     = (Ok (stop_token, tt),
        World [StProgressNew 0; StProgress (INR 0 / INR 128)] tt)
  /\ demo_evaluate stops_at_once 1 128 blank
     = (Ok ([], tt, 0%nat),
        bar_emptied
          (World [StProgressNew 0; StProgress (INR 0 / INR 128)] tt))
  /\ steps_executed
       (page (bar_emptied
                (World [StProgressNew 0; StProgress (INR 0 / INR 128)] tt)))
     = (steps_executed (page blank) + List.length (@nil Z) + 1)%nat.
Proof.
  assert (H1 : decodes no_masks fixed_sampler demo_quotient tt
                       stops_at_once 1 0 1
                       "Greedy" 42 128 0 [0%Z] (World [StProgressNew 0] tt)
                       [] (World [StProgressNew 0] tt)) by constructor.
  assert (H2 : (List.length (@nil Z) < 128)%nat) by (simpl; lia).
  assert (H3 : demo_step stops_at_once 128 0 [0%Z]
                         (World [StProgressNew 0] tt)
               = (Ok (stop_token, tt),
                  World [StProgressNew 0; StProgress (INR 0 / INR 128)] tt))
    by apply stops_at_once_step.
  split; [exact H1|]. split; [exact H2|]. split; [exact H3|].
  exact (proj2 (evaluate_terminates no_masks fixed_sampler demo_quotient tt
                  stops_at_once 1 0 1 "Greedy" 42 128 demo_tokenizer blank)
               [] _ tt _ H1 H2 H3).
Defined.

Lemma evaluate_result_tokens_witness :
  demo_evaluate never_stops 1 1 blank
  = (Ok ([3%Z], tt, 0%nat),
     World [StProgressNew 0; StProgress (INR 0 / INR 1); StEmpty] tt)
  /\ (exists wk,
        decodes no_masks fixed_sampler demo_quotient tt never_stops 1 0 1
                "Greedy" 42 1
                0 [0%Z] (World [StProgressNew 0] tt) [3%Z] wk)
  /\ ~ In stop_token [3%Z]
  /\ (List.length [3%Z] <= 1)%nat
  /\ (1%nat = 1%nat ->
      forall t a0 w1,
        demo_step never_stops 1 0 [0%Z] (World [StProgressNew 0] tt)
        = (Ok (t, a0), w1) ->
        t <> stop_token ->
        [3%Z] = [t] /\ List.length [3%Z] = 1%nat).
Proof.
  split; [exact never_stops_run|].
  exact (evaluate_result_tokens no_masks fixed_sampler demo_quotient tt
           never_stops
           1 0 1 "Greedy" 42 1 demo_tokenizer blank [3%Z] tt 0%nat _
           never_stops_run).
Defined.

Lemma evaluate_step_count_witness :
  demo_evaluate never_stops 1 1 blank
  = (Ok ([3%Z], tt, 0%nat),
     World [StProgressNew 0; StProgress (INR 0 / INR 1); StEmpty] tt)
  /\ steps_executed [StProgressNew 0; StProgress (INR 0 / INR 1); StEmpty]
     = (steps_executed (page blank) + 0 + 1)%nat
  /\ ((0%nat = List.length [3%Z] /\ (0 < 1)%nat) \/
      (List.length [3%Z] = 1%nat /\ 1%nat = 1%nat)).
Proof.
  split; [exact never_stops_run|].
  exact (evaluate_step_count no_masks fixed_sampler demo_quotient tt never_stops
           1 0 1 "Greedy" 42 1 demo_tokenizer blank [3%Z] tt 0%nat _
           never_stops_run).
Defined.

(** C5, as stated, fails on both paths.  Under a limit of one step, a
    model that stops at once and a model that never stops each return 0
    as third component after one decoding step has been executed. *)
Lemma evaluate_count_is_last_index :
  (exists w', demo_evaluate stops_at_once 1 1 blank
              = (Ok ([], tt, 0%nat), w') /\
              steps_executed (page w') = 1%nat) /\
  (exists w', demo_evaluate never_stops 1 1 blank
              = (Ok ([3%Z], tt, 0%nat), w') /\
              steps_executed (page w') = 1%nat).
Proof.
  split; eexists; (split; [first [exact stops_at_once_run
                                 | exact never_stops_run]
                          | reflexivity]).
Qed.






(** ** Sampling and the state of the generator *)

Section SamplingFacts.

Context {Image Attn Mask Gen : Type}.
Variable create_target_masks : list Z -> Mask.
Variable categorical : list R -> Z -> Gen -> Z * Gen.
Variable truediv : list R -> R -> list R.
Variable inp_img : Image.
Variable transformer : @Transformer Image Attn Mask.
Variables (temperature : R) (top_k : nat) (top_p : R).
Variables (seed : Z) (MAX_LENGTH : nat).

Local Abbreviation sampling_step :=
  (decode_step create_target_masks categorical truediv inp_img transformer
               temperature top_k top_p "Sampling" seed MAX_LENGTH).
Local Abbreviation sampling_loop :=
  (decode_loop create_target_masks categorical truediv inp_img transformer
               temperature top_k top_p "Sampling" seed MAX_LENGTH).
Local Abbreviation sampling_evaluate tokenizer :=
  (evaluate create_target_masks categorical truediv inp_img tokenizer
            transformer temperature top_k top_p "Sampling" seed MAX_LENGTH).

(** The ids drawn with the seed do not hang on the generator state. *)
Local Abbreviation draws_by_seed :=
  (forall logits g1 g2,
      fst (categorical logits seed g1) = fst (categorical logits seed g2)).




End SamplingFacts.




(** ** The gate and the attention grid in [main] *)

Lemma subplots_app (p q : list st_event) :
  subplots (p ++ q) = (subplots p + subplots q)%nat.
Proof. unfold subplots. now rewrite filter_app, length_app. Qed.

Lemma subplots_decoder (ev : list st_event) :
  Forall decoder_event ev -> subplots ev = 0%nat.
Proof.
  unfold subplots. induction 1 as [|e ev He _ IH]; [reflexivity|].
  destruct e; simpl in *; try contradiction; exact IH.
Qed.

Lemma subplots_plotted (f : nat -> string) (l : list nat) :
  subplots (plotted f l) = List.length l.
Proof.
  unfold subplots, plotted. induction l as [|j l IH]; simpl; [reflexivity|].
  now rewrite IH.
Qed.

Lemma decoder_event_not_info (ev : list st_event) :
  Forall decoder_event ev -> Forall not_info ev.
Proof.
  intros H. eapply Forall_impl; [|exact H].
  intros e. destruct e; simpl; tauto.
Qed.

Lemma sigmoid_0 : sigmoid 0 = 1 / 2.
Proof. unfold sigmoid. rewrite Ropp_0, exp_0. lra. Qed.

Section MainFacts.

Context {Image Attn Mask Gen : Type}.
Variable create_target_masks : list Z -> Mask.
Variable categorical : list R -> Z -> Gen -> Z * Gen.
Variable truediv : list R -> R -> list R.
Variable attention_map : Attn -> result (list (list R)).
Variable tokenizer : Tokenizer.
Variable transformer : @Transformer Image Attn Mask.
Variable cxr_validator_model : Image -> R.
Variable cfg : sidebar.

Local Abbreviation run_main :=
  (main create_target_masks categorical truediv attention_map tokenizer
        transformer cxr_validator_model cfg).
Local Abbreviation run_evaluate img :=
  (evaluate create_target_masks categorical truediv img tokenizer
            transformer (temperature cfg) (top_k cfg) (top_p cfg)
            (options cfg) (seed cfg) 128).

(** The title a sub-plot gets. *)
Local Abbreviation title res :=
  (fun j : nat => decode tokenizer [nth j res 0%Z]).

(** What the page shows between [evaluate] and the figure. *)
Local Abbreviation report res :=
  [StSubheader "Generated Report:"; StWrite (decode tokenizer res);
   StSubheader "Attention Plot:"].

Lemma plot_loop_ok (res : list Z) (attn_map : list (list R)) (n : nat) :
  forall s (w : world Gen),
    (s + n <= List.length res)%nat ->
    (s + n <= 16 * 8)%nat ->
    (forall j, (s <= j < s + n)%nat -> has_patches attn_map j) ->
    plot_loop tokenizer res attn_map (seq s n) w
    = (Ok tt, World (page w ++ plotted (title res) (seq s n)) (rng w)).
Proof.
  induction n as [|n IH]; intros s w Hn Hgrid Hrows;
    cbn [seq plotted flat_map plot_loop].
  - unfold ret. rewrite app_nil_r. now destruct w.
  - destruct (Hrows s ltac:(lia)) as (row & Hrow & Hlen).
    destruct (nth_error res s) as [id|] eqn:Hid.
    2:{ apply nth_error_None in Hid. lia. }
    unfold bind, lift, attention_row, reshape_7_7, add_subplot, token_at.
    rewrite Hrow, Hlen, Hid. cbn [Nat.eqb Nat.mul Nat.add].
    destruct (Z.leb_spec 1 (Z.of_nat s + 1)); [|lia].
    destruct (Z.leb_spec (Z.of_nat s + 1) (16 * 8)); [|lia].
    cbn [andb]. unfold emit. cbn [page rng].
    fold (plotted (title res) (seq (S s) n)).
    rewrite IH; [|lia|lia|intros j Hj; apply Hrows; lia]. cbn [page rng].
    rewrite <- !app_assoc. cbn [app].
    now rewrite (nth_error_nth _ _ 0%Z Hid).
Qed.

Lemma plot_loop_events (res : list Z) (attn_map : list (list R))
    (indices : list nat) :
  forall (w : world Gen) r w',
    plot_loop tokenizer res attn_map indices w = (r, w') ->
    exists ev, page w' = page w ++ ev /\ Forall not_info ev.
Proof.
  induction indices as [|j rest IH]; intros w r w' H; cbn [plot_loop] in H.
  - injection H as <- <-. exists []. now rewrite app_nil_r.
  - unfold bind, lift, add_subplot, emit, raise in H.
    destruct (attention_row attn_map j) as [row|e];
      [|injection H as <- <-; exists []; now rewrite app_nil_r].
    destruct (reshape_7_7 row) as [grid|e];
      [|injection H as <- <-; exists []; now rewrite app_nil_r].
    destruct (andb _ _);
      [|injection H as <- <-; exists []; now rewrite app_nil_r].
    cbn [page rng] in H.
    destruct (token_at res j) as [id|e].
    + apply IH in H. cbn [page] in H.
      destruct H as (ev & Hw' & Hev). rewrite Hw', <- !app_assoc.
      eexists. split; [reflexivity|].
      repeat (constructor; [exact I|]). exact Hev.
    + injection H as <- <-. cbn [page]. eexists.
      split; [reflexivity|]. repeat constructor.
Qed.

Lemma main_rejects (img : Image) (w : world Gen) :
  sigmoid (cxr_validator_model img) < 0.1 ->
  run_main (Some img) w
  = (Ok tt,
     World (page w ++ [StImage; StInfo "Image is not a Chest X-ray"])
           (rng w)).
Proof.
  intros Hv. unfold main, bind, emit. cbn [page rng].
  replace (Rltb _ _) with true by (symmetry; now apply Rltb_lt).
  cbn [page rng]. now rewrite <- app_assoc.
Qed.

(** Past the gate [main] hands the image to [evaluate] and renders what
    it returns. *)
Lemma main_accepts (img : Image) (w : world Gen) :
  0.1 <= sigmoid (cxr_validator_model img) ->
  run_main (Some img) w
  = match run_evaluate img (World (page w ++ [StImage]) (rng w)) with
    | (Ok (res, a, tokens), w1) =>
        match attention_map a with
        | Ok attn_map =>
            match plot_loop tokenizer res attn_map
                    (range (Z.of_nat tokens - 1))
                    (World (page w1 ++ report res) (rng w1)) with
            | (Ok _, w2) =>
                (Ok tt,
                 World (page w2 ++ [StPyplot; StButton "Regenerate Report"])
                       (rng w2))
            | (Raise e, w2) => (Raise e, w2)
            end
        | Raise e => (Raise e, World (page w1 ++ report res) (rng w1))
        end
    | (Raise e, w1) => (Raise e, w1)
    end.
Proof.
  intros Hv. unfold main. unfold bind at 1. unfold emit at 1.
  replace (Rltb _ _) with false by (symmetry; now apply Rltb_ge).
  unfold bind at 1.
  destruct (run_evaluate img _) as [[[[res a] tokens]|e] w1];
    [|reflexivity].
  unfold bind, emit, lift. cbn [page rng].
  repeat rewrite <- app_assoc. cbn [app].
  destruct (attention_map a) as [attn_map|e]; [|reflexivity].
  destruct (plot_loop _ _ _ _ _) as [[u|e] w2]; [|reflexivity].
  cbn [page rng]. now rewrite <- app_assoc.
Qed.

Lemma main_accepts_page (img : Image) (w : world Gen) r w' :
  0.1 <= sigmoid (cxr_validator_model img) ->
  run_main (Some img) w = (r, w') ->
  exists ev,
    page w' = page w ++ StImage :: StProgressNew 0 :: ev /\
    Forall not_info ev.
Proof.
  intros Hv. rewrite (main_accepts img w Hv).
  destruct (run_evaluate img _) as [[[[res a] tokens]|e] w1] eqn:He;
    rewrite evaluate_unfold in He; apply loop_events in He;
    destruct He as (ev1 & Hw1 & Hev1); cbn [page] in Hw1;
    apply decoder_event_not_info in Hev1.
  - destruct (attention_map a) as [attn_map|e].
    + destruct (plot_loop _ _ _ _ _) as [[u|e] w2] eqn:Hp;
        apply plot_loop_events in Hp; destruct Hp as (ev2 & Hw2 & Hev2);
        cbn [page] in Hw2; intros H; injection H as <- <-; cbn [page];
        rewrite Hw2, Hw1; repeat rewrite <- app_assoc; cbn [app];
        (eexists; split; [reflexivity|]);
        repeat first [assumption | apply Forall_app; split | constructor].
    + intros H; injection H as <- <-; cbn [page]. rewrite Hw1.
      repeat rewrite <- app_assoc; cbn [app].
      eexists; split; [reflexivity|].
      repeat first [assumption | apply Forall_app; split | constructor].
  - intros H. injection H as <- <-. rewrite Hw1.
    repeat rewrite <- app_assoc. cbn [app]. eauto.
Qed.

(** C6.  On a fresh page the upload is turned away, with the message
    and nothing else after the image, exactly when the sigmoid of the
    validator output is strictly below 0.1; from 0.1 on, 0.1 itself
    included, the decoder is started and no rejection is shown. *)
Theorem validator_gate (img : Image) (g : Gen) :
  (rejected (page (snd (run_main (Some img) (World [] g))))
   <-> sigmoid (cxr_validator_model img) < 0.1) /\
  (generation_started (page (snd (run_main (Some img) (World [] g))))
   <-> 0.1 <= sigmoid (cxr_validator_model img)) /\
  (sigmoid (cxr_validator_model img) < 0.1 ->
   run_main (Some img) (World [] g)
   = (Ok tt, World [StImage; StInfo "Image is not a Chest X-ray"] g)) /\
  (sigmoid (cxr_validator_model img) = 0.1 ->
   generation_started (page (snd (run_main (Some img) (World [] g)))) /\
   ~ rejected (page (snd (run_main (Some img) (World [] g))))).
Proof.
  assert (Hlow : sigmoid (cxr_validator_model img) < 0.1 ->
                 run_main (Some img) (World [] g)
                 = (Ok tt,
                    World [StImage; StInfo "Image is not a Chest X-ray"] g)).
  { intros Hv. now rewrite (main_rejects img _ Hv). }
  assert (Hhigh : 0.1 <= sigmoid (cxr_validator_model img) ->
                  generation_started
                    (page (snd (run_main (Some img) (World [] g)))) /\
                  ~ rejected
                      (page (snd (run_main (Some img) (World [] g))))).
  { intros Hv.
    destruct (run_main (Some img) (World [] g)) as [r w'] eqn:Hm.
    apply (main_accepts_page img _ r w' Hv) in Hm.
    destruct Hm as (ev & Hw' & Hev). cbn [snd page app] in *.
    rewrite Hw'. unfold generation_started, rejected. split.
    - right. now left.
    - intros [E|[E|E]]; try discriminate.
      rewrite Forall_forall in Hev. exact (Hev _ E). }
  destruct (Rlt_dec (sigmoid (cxr_validator_model img)) 0.1) as [Hv|Hv].
  - split; [|split; [|split]].
    + split; [auto|]. intros _. rewrite (Hlow Hv). cbn [snd page].
      unfold rejected. right. now left.
    + split; [|lra]. rewrite (Hlow Hv). cbn [snd page].
      unfold generation_started. intros [E|[E|[]]]; discriminate.
    + exact Hlow.
    + lra.
  - assert (Hge : 0.1 <= sigmoid (cxr_validator_model img)) by lra.
    destruct (Hhigh Hge) as [Hstart Hnot].
    split; [|split; [|split]].
    + split; [intros H; contradiction | intros H; contradiction].
    + split; auto.
    + intros H. contradiction.
    + intros _. auto.
Qed.

(** What [main] puts on the page after a run of [evaluate] that
    returns, when the attention map has its rows. *)
Lemma main_renders (img : Image) (w : world Gen) res a i w1 attn_map :
  0.1 <= sigmoid (cxr_validator_model img) ->
  run_evaluate img (World (page w ++ [StImage]) (rng w))
  = (Ok (res, a, i), w1) ->
  attention_map a = Ok attn_map ->
  (forall j, (j < i - 1)%nat -> has_patches attn_map j) ->
  run_main (Some img) w
  = (Ok tt,
     World (page w1 ++ report res
            ++ plotted (title res) (seq 0 (i - 1))
            ++ [StPyplot; StButton "Regenerate Report"])
           (rng w1)) /\
  subplots (page w1) = subplots (page w) /\
  ((List.length res = i /\ (i < 128)%nat) \/
   (List.length res = 128%nat /\ i = 127%nat)).
Proof.
  intros Hv He Hmap Hrows.
  assert (Hlen : (List.length res = i /\ (i < 128)%nat) \/
                 (List.length res = 128%nat /\ i = 127%nat)).
  { pose proof (evaluate_returns _ _ _ _ _ _ _ _ _ _ _ _ _ _ _ _ _ He)
      as (wk & _ & Hend).
    destruct Hend as [(Hi & Hlt & _)|(Hl & Hi & _)];
      [left | right]; split; lia. }
  split; [|split; [|exact Hlen]].
  - rewrite (main_accepts img w Hv), He, Hmap.
    unfold range. replace (Z.to_nat (Z.of_nat i - 1)) with (i - 1)%nat by lia.
    rewrite plot_loop_ok; [|lia|lia|intros j Hj; apply Hrows; lia].
    cbn [page rng]. now repeat rewrite <- app_assoc.
  - rewrite evaluate_unfold in He. apply loop_events in He.
    destruct He as (ev & Hw1 & Hev). cbn [page] in Hw1.
    rewrite Hw1. repeat rewrite subplots_app.
    rewrite (subplots_decoder ev Hev). unfold subplots. simpl. lia.
Qed.

(** C9, as amended.  After a run of [evaluate] that returns, and with an
    attention map that has a row of 49 patch weights for each index
    below [tokens - 1], the figure gets one overlay for each of these
    indices, [tokens] being the third component returned: one overlay
    fewer than generated tokens when decoding met the stop token (none
    for an empty sequence), and 126 overlays for the 128 tokens of a
    run that reached the step limit. *)
Theorem attention_overlays (img : Image) (w : world Gen)
    (res : list Z) (a : Attn) (i : nat) (w1 : world Gen)
    (attn_map : list (list R)) :
  0.1 <= sigmoid (cxr_validator_model img) ->
  run_evaluate img (World (page w ++ [StImage]) (rng w))
  = (Ok (res, a, i), w1) ->
  attention_map a = Ok attn_map ->
  (forall j, (j < i - 1)%nat -> has_patches attn_map j) ->
  exists w',
    run_main (Some img) w = (Ok tt, w') /\
    subplots (page w') = (subplots (page w) + (i - 1))%nat /\
    ((List.length res = i /\ (i < 128)%nat /\
      subplots (page w') = (subplots (page w) + (List.length res - 1))%nat)
     \/
     (List.length res = 128%nat /\ i = 127%nat /\
      subplots (page w') = (subplots (page w) + 126)%nat)).
Proof.
  intros Hv He Hmap Hrows.
  destruct (main_renders img w res a i w1 attn_map Hv He Hmap Hrows)
    as (Hm & Hsub & Hlen).
  eexists. split; [exact Hm|]. cbn [page].
  assert (Hcount : subplots
                     (page w1 ++ report res
                      ++ plotted (title res) (seq 0 (i - 1))
                      ++ [StPyplot; StButton "Regenerate Report"])
                   = (subplots (page w) + (i - 1))%nat).
  { repeat rewrite subplots_app. rewrite subplots_plotted, length_seq, Hsub.
    unfold subplots. simpl. lia. }
  split; [exact Hcount|].
  destruct Hlen as [[Hl Hi]|[Hl Hi]]; [left | right];
    (split; [exact Hl|]); (split; [exact Hi|]); rewrite Hcount; lia.
Qed.

End MainFacts.

(** ** The renderer on a stand-in *)

Lemma sigmoid_0_valid : 0.1 <= sigmoid ((fun _ : unit => 0) tt).
Proof. cbv beta. rewrite sigmoid_0. lra. Qed.

Lemma one_then_stop_from_main :
  evaluate no_masks fixed_sampler demo_quotient tt demo_tokenizer
           one_then_stop
           (temperature default_sidebar) (top_k default_sidebar)
           (top_p default_sidebar) (options default_sidebar)
           (seed default_sidebar) 128
           (World (page blank ++ [StImage]) (rng blank))
  = (Ok ([3%Z], tt, 1%nat),
     World ([StImage] ++ [StProgressNew 0; StProgress (INR 0 / INR 128);
                          StProgress (INR 1 / INR 128); StEmpty]) tt).
Proof. exact (one_then_stop_run [StImage]). Qed.

Lemma two_then_stop_from_main :
  evaluate no_masks fixed_sampler demo_quotient tt demo_tokenizer
           two_then_stop
           (temperature default_sidebar) (top_k default_sidebar)
           (top_p default_sidebar) (options default_sidebar)
           (seed default_sidebar) 128
           (World (page blank ++ [StImage]) (rng blank))
  = (Ok ([3%Z; 3%Z], tt, 2%nat),
     World ([StImage] ++ [StProgressNew 0; StProgress (INR 0 / INR 128);
                          StProgress (INR 1 / INR 128);
                          StProgress (INR 2 / INR 128); StEmpty]) tt).
Proof. exact (two_then_stop_run [StImage]). Qed.

Lemma flat_attention_patches (j : nat) :
  (j < 129)%nat -> has_patches (repeat (repeat 1 49) 129) j.
Proof.
  intros Hj. exists (repeat 1 49).
  split; [now apply nth_error_repeat | apply repeat_length].
Qed.

Lemma attention_overlays_witness :
  0.1 <= sigmoid ((fun _ : unit => 0) tt) /\
  exists w',
    main no_masks fixed_sampler demo_quotient flat_attention demo_tokenizer
         two_then_stop (fun _ : unit => 0) default_sidebar (Some tt) blank
    = (Ok tt, w') /\
    subplots (page w') = (subplots (page blank) + (2 - 1))%nat /\
    ((List.length [3%Z; 3%Z] = 2%nat /\ (2 < 128)%nat /\
      subplots (page w')
      = (subplots (page blank) + (List.length [3%Z; 3%Z] - 1))%nat)
     \/
     (List.length [3%Z; 3%Z] = 128%nat /\ 2%nat = 127%nat /\
      subplots (page w') = (subplots (page blank) + 126)%nat)).
Proof.
  split; [exact sigmoid_0_valid|].
  exact (attention_overlays no_masks fixed_sampler demo_quotient
           flat_attention demo_tokenizer two_then_stop (fun _ : unit => 0)
           default_sidebar tt blank [3%Z; 3%Z] tt 2%nat _
           (repeat (repeat 1 49) 129) sigmoid_0_valid
           two_then_stop_from_main eq_refl
           (fun j _ => flat_attention_patches j ltac:(lia))).
Defined.

(** C9, as stated, fails: a run that generates one token and then meets
    the stop token returns a sequence of one token, and the figure gets
    no overlay. *)
Lemma one_token_no_overlay :
  exists w1 w',
    evaluate no_masks fixed_sampler demo_quotient tt demo_tokenizer
             one_then_stop
             (temperature default_sidebar) (top_k default_sidebar)
             (top_p default_sidebar) (options default_sidebar)
             (seed default_sidebar) 128 (World [StImage] tt)
    = (Ok ([3%Z], tt, 1%nat), w1) /\
    main no_masks fixed_sampler demo_quotient flat_attention demo_tokenizer
         one_then_stop (fun _ : unit => 0) default_sidebar (Some tt) blank
    = (Ok tt, w') /\
    List.length [3%Z] = 1%nat /\
    subplots (page w') = 0%nat.
Proof.
  destruct (main_renders no_masks fixed_sampler demo_quotient flat_attention
              demo_tokenizer one_then_stop (fun _ : unit => 0)
              default_sidebar tt blank [3%Z] tt 1%nat _
              (repeat (repeat 1 49) 129)
              sigmoid_0_valid one_then_stop_from_main eq_refl
              (fun j _ => flat_attention_patches j ltac:(lia)))
    as (Hm & _ & _).
  eexists. eexists. split; [exact one_then_stop_from_main|].
  split; [exact Hm|]. split; reflexivity.
Qed.

(** * Further properties of the filters *)

(** X1.  Top-k filtering does not move the best score: whenever some logit
    is above the sentinel, [tf.argmax] of the filtered row is [tf.argmax]
    of the logits. *)
Theorem top_k_keeps_argmax (logits out : list R) (k : nat) :
  top_k_logits logits k = Ok out ->
  Exists (fun x => sentinel < x) logits ->
  tf.argmax out = tf.argmax logits.
Proof.
  intros H Hex.
  assert (Hne : logits <> []) by (destruct Hex; discriminate).
  destruct (argmax_first_max logits Hne) as (m & Hm).
  apply top_k_inversion in H. destruct H as [[_ ->]|[_ (b & Hb & ->)]];
    [reflexivity|].
  apply (argmax_is _ _ m). apply first_max_mask; [exact Hm | |].
  - eapply sorted_entry_le_max; eassumption.
  - eapply first_max_above; eassumption.
Qed.

(** The row [[3; 1; 2]] filtered with [k = 2]: the least logit goes. *)
Lemma top_k_triple : top_k_logits [3; 1; 2] 2 = Ok [3; sentinel; 2].
Proof.
  unfold top_k_logits, _top_k, tf.nn_top_k, tf.last. simpl.
  rcompare. simpl. rcompare. simpl. unfold tf.less. simpl. rcompare.
  now rewrite Rmult_1_l.
Qed.

Lemma top_k_keeps_argmax_witness :
  top_k_logits [3; 1; 2] 2 = Ok [3; sentinel; 2] /\
  Exists (fun x => sentinel < x) [3; 1; 2] /\
  tf.argmax [3; sentinel; 2] = tf.argmax [3; 1; 2].
Proof.
  assert (H : Exists (fun x => sentinel < x) [3; 1; 2])
    by (constructor; unfold sentinel; lra).
  split; [exact top_k_triple|]. split; [exact H|].
  exact (top_k_keeps_argmax [3; 1; 2] [3; sentinel; 2] 2 top_k_triple H).
Defined.

(** X2.  Top-p filtering does not move the best score either, whatever
    [p]. *)
Theorem top_p_keeps_argmax (logits out : list R) (p : R) :
  top_p_logits logits p = Ok out ->
  Exists (fun x => sentinel < x) logits ->
  tf.argmax out = tf.argmax logits.
Proof.
  intros H Hex.
  assert (Hne : logits <> []) by (destruct Hex; discriminate).
  destruct (argmax_first_max logits Hne) as (m & Hm).
  apply top_p_inversion in H. destruct H as (b & Hb & ->).
  apply (argmax_is _ _ m). apply first_max_mask; [exact Hm | |].
  - eapply sorted_entry_le_max; eassumption.
  - eapply first_max_above; eassumption.
Qed.

Lemma top_p_keeps_argmax_witness :
  top_p_logits [1; 0] (9 / 10) = Ok [1; sentinel] /\
  Exists (fun x => sentinel < x) [1; 0] /\
  tf.argmax [1; sentinel] = tf.argmax [1; 0].
Proof.
  assert (H : Exists (fun x => sentinel < x) [1; 0])
    by (constructor; unfold sentinel; lra).
  split; [exact top_p_pair|]. split; [exact H|].
  exact (top_p_keeps_argmax [1; 0] [1; sentinel] (9 / 10) top_p_pair H).
Defined.

(** X3.  The sentinel is a finite score: when both logits of a row lie
    below it, keeping the top one overwrites the other with a larger
    value, and [tf.argmax] moves to the overwritten position. *)
Theorem mask_can_promote (x y : R) :
  y < x -> x < sentinel ->
  top_k_logits [x; y] 1 = Ok [x; sentinel] /\
  tf.argmax [x; y] = 0%nat /\
  tf.argmax [x; sentinel] = 1%nat.
Proof.
  intros Hyx Hxs.
  assert (Hsort : tf.sort [x; y] = [x; y]).
  { simpl. replace (Rltb x y) with false
      by (symmetry; apply Rltb_ge; lra). reflexivity. }
  split; [|split].
  - unfold top_k_logits, _top_k, tf.nn_top_k, tf.last.
    cbn [Nat.eqb List.length Nat.ltb Nat.leb]. rewrite Hsort.
    cbn [firstn List.length Nat.sub nth_error rbind].
    rewrite where_is_mask. cbn [map].
    now rewrite (mask_keeps x x), (mask_drops x y) by lra.
  - simpl. replace (Rltb x y) with false
      by (symmetry; apply Rltb_ge; lra). reflexivity.
  - simpl. replace (Rltb x sentinel) with true
      by (symmetry; now apply Rltb_lt). reflexivity.
Qed.

Lemma mask_can_promote_witness :
  -3e10 < -2e10 /\ -2e10 < sentinel /\
  top_k_logits [-2e10; -3e10] 1 = Ok [-2e10; sentinel] /\
  tf.argmax [-2e10; -3e10] = 0%nat /\
  tf.argmax [-2e10; sentinel] = 1%nat.
Proof.
  assert (H1 : -3e10 < -2e10) by lra.
  assert (H2 : -2e10 < sentinel) by (unfold sentinel; lra).
  split; [exact H1|]. split; [exact H2|].
  exact (mask_can_promote (-2e10) (-3e10) H1 H2).
Defined.

(** ** Tightening and loosening the filters *)

Lemma mask_only_tighter (b b' : R) (l : list R) :
  b' <= b -> mask_only (map (mask b') l) (map (mask b) l).
Proof.
  intros Hb. unfold mask_only.
  induction l as [|x l IH]; simpl; constructor; [|exact IH].
  destruct (Rlt_dec x b) as [Hx|Hx].
  - right. now apply mask_drops.
  - left. rewrite (mask_keeps b x), (mask_keeps b' x) by lra. reflexivity.
Qed.

(** X4.  A larger [k] keeps more: for [1 <= k <= k'] within the row, the
    row filtered with [k] is the row filtered with [k'] with further
    entries overwritten by the sentinel. *)
Theorem top_k_monotone (logits : list R) (k k' : nat) :
  (1 <= k)%nat -> (k <= k')%nat -> (k' <= List.length logits)%nat ->
  exists out out',
    top_k_logits logits k = Ok out /\
    top_k_logits logits k' = Ok out' /\
    mask_only out' out.
Proof.
  intros H1 H2 H3.
  destruct (top_k_in_range logits k ltac:(lia)) as (b & Hb & Hout).
  destruct (top_k_in_range logits k' ltac:(lia)) as (b' & Hb' & Hout').
  exists (map (mask b) logits), (map (mask b') logits).
  split; [exact Hout|]. split; [exact Hout'|].
  apply mask_only_tighter.
  apply (descending_nth_le _ (sort_descending logits) (k - 1) (k' - 1));
    [lia | exact Hb | exact Hb'].
Qed.

Lemma top_k_monotone_witness :
  (1 <= 1)%nat /\ (1 <= 2)%nat /\ (2 <= List.length [3; 1; 2]%R)%nat /\
  exists out out',
    top_k_logits [3; 1; 2] 1 = Ok out /\
    top_k_logits [3; 1; 2] 2 = Ok out' /\
    mask_only out' out.
Proof.
  assert (H1 : (1 <= 1)%nat) by lia.
  assert (H2 : (1 <= 2)%nat) by lia.
  assert (H3 : (2 <= List.length [3; 1; 2]%R)%nat) by (simpl; lia).
  split; [exact H1|]. split; [exact H2|]. split; [exact H3|].
  exact (top_k_monotone [3; 1; 2] 1 2 H1 H2 H3).
Defined.

Lemma count_true_monotone (c : list R) (p p' : R) :
  p <= p' ->
  (tf.count_true (tf.less_equal c p)
   <= tf.count_true (tf.less_equal c p'))%Z.
Proof.
  intros Hp. unfold tf.less_equal, tf.count_true.
  induction c as [|x c IH]; simpl; [lia|].
  destruct (Rle_dec x p) as [Hx|Hx].
  - replace (Rleb x p) with true by (symmetry; now apply Rleb_le).
    replace (Rleb x p') with true by (symmetry; apply Rleb_le; lra). lia.
  - replace (Rleb x p) with false by (symmetry; apply Rleb_gt; lra).
    destruct (Rleb x p'); lia.
Qed.

Lemma top_p_index_monotone (logits : list R) (p p' : R) :
  p <= p' -> (top_p_index logits p <= top_p_index logits p')%Z.
Proof.
  intros Hp. unfold top_p_index.
  pose proof (count_true_monotone
                (tf.cumsum (tf.softmax (tf.sort logits))) p p' Hp). lia.
Qed.

Lemma top_p_index_nonneg (logits : list R) (p : R) :
  (0 <= top_p_index logits p)%Z.
Proof. unfold top_p_index. lia. Qed.

(** X5.  A larger [p] keeps more: for [p <= p'] the row filtered with [p]
    is the row filtered with [p'] with further entries overwritten by the
    sentinel. *)
Theorem top_p_monotone (logits : list R) (p p' : R) :
  logits <> [] -> p <= p' ->
  exists out out',
    top_p_logits logits p = Ok out /\
    top_p_logits logits p' = Ok out' /\
    mask_only out' out.
Proof.
  intros Hne Hp.
  destruct (top_p_kept logits p Hne) as (N & b & _ & _ & Hout & _).
  destruct (top_p_kept logits p' Hne) as (N' & b' & _ & _ & Hout' & _).
  destruct (top_p_inversion _ _ _ Hout) as (c & Hc & Hmap).
  destruct (top_p_inversion _ _ _ Hout') as (c' & Hc' & Hmap').
  exists (map (mask c) logits), (map (mask c') logits).
  split; [congruence|]. split; [congruence|].
  apply mask_only_tighter.
  apply (descending_nth_le _ (sort_descending logits)
           (Z.to_nat (top_p_index logits p))
           (Z.to_nat (top_p_index logits p'))); [|exact Hc | exact Hc'].
  pose proof (top_p_index_monotone logits p p' Hp).
  pose proof (top_p_index_nonneg logits p). lia.
Qed.

Lemma top_p_monotone_witness :
  [1; 0] <> [] /\ 1 / 2 <= 9 / 10 /\
  exists out out',
    top_p_logits [1; 0] (1 / 2) = Ok out /\
    top_p_logits [1; 0] (9 / 10) = Ok out' /\
    mask_only out' out.
Proof.
  assert (H1 : [1; 0] <> []) by discriminate.
  assert (H2 : 1 / 2 <= 9 / 10) by lra.
  split; [exact H1|]. split; [exact H2|].
  exact (top_p_monotone [1; 0] (1 / 2) (9 / 10) H1 H2).
Defined.

(** X6.  With [k] equal to the size of the row, the largest value the
    sidebar offers, top-k filtering returns the logits as they are. *)
Theorem top_k_full_row (logits : list R) :
  logits <> [] ->
  top_k_logits logits (List.length logits) = Ok logits.
Proof.
  intros Hne.
  assert (HL : (1 <= List.length logits)%nat).
  { destruct logits; [congruence | simpl; lia]. }
  destruct (top_k_in_range logits (List.length logits) ltac:(lia))
    as (b & Hb & Hout).
  rewrite Hout. f_equal. now apply mask_below_least.
Qed.

Lemma top_k_full_row_witness :
  [3; 1; 2] <> [] /\
  top_k_logits [3; 1; 2] (List.length [3; 1; 2]%R) = Ok [3; 1; 2].
Proof.
  assert (H : [3; 1; 2] <> []) by discriminate.
  split; [exact H | exact (top_k_full_row [3; 1; 2] H)].
Defined.

Lemma prefix_mass_1_pos (logits : list R) :
  logits <> [] -> 0 < prefix_mass logits 1.
Proof.
  intros Hne. unfold prefix_mass.
  pose proof (softmax_pos (tf.sort logits)) as Hpos.
  pose proof (softmax_length (tf.sort logits)) as Hlen.
  rewrite sort_length in Hlen.
  destruct (tf.softmax (tf.sort logits)) as [|q qs].
  - destruct logits; [congruence | discriminate].
  - inversion Hpos; subst. simpl. lra.
Qed.

(** X7.  With [p <= 0], the lowest value the sidebar offers, top-p
    filtering keeps the logits that equal the best score and overwrites
    every other one. *)
Theorem top_p_zero_keeps_best (logits : list R) (p : R) :
  logits <> [] -> p <= 0 ->
  exists m out,
    nth_error (tf.sort logits) 0 = Some m /\
    Forall (fun x => x <= m) logits /\
    top_p_logits logits p = Ok out /\
    Forall2 (fun x y => (x = m -> y = x) /\ (x <> m -> y = sentinel))
            logits out.
Proof.
  intros Hne Hp.
  destruct (top_p_kept logits p Hne) as (N & b & HN & Hb & Hout & Hin & _).
  assert (HN1 : N = 1%nat).
  { destruct Hin as [Hle|[H1 _]]; [|exact H1]. exfalso.
    pose proof (prefix_mass_1_pos logits Hne) as H0.
    destruct (Nat.eq_dec N 1) as [->|HN1]; [lra|].
    pose proof (prefix_mass_counted logits p 0 ltac:(lia)) as Hc0.
    pose proof (prefix_mass_counted logits p (N - 1) ltac:(lia)) as HcN.
    replace (S (N - 1)) with N in HcN by lia.
    apply HcN in Hle. assert (Hlt : prefix_mass logits 1 <= p)
      by (apply Hc0; lia). lra. }
  subst N. simpl in Hb.
  assert (Hmax : Forall (fun x => x <= b) logits).
  { apply Forall_forall. intros x Hx.
    apply (Permutation_in _ (Permutation_sym (sort_perm logits))) in Hx.
    apply In_nth_error in Hx. destruct Hx as [i Hi].
    apply (descending_nth_le _ (sort_descending logits) 0 i);
      [lia | exact Hb | exact Hi]. }
  exists b, (map (mask b) logits).
  split; [exact Hb|]. split; [exact Hmax|]. split; [exact Hout|].
  clear -Hmax. induction Hmax as [|x l Hx _ IH]; simpl; constructor;
    [|exact IH].
  split.
  - intros ->. apply mask_keeps. lra.
  - intros Hne. apply mask_drops. lra.
Qed.

Lemma top_p_zero_keeps_best_witness :
  [1; 0] <> [] /\ 0 <= 0 /\
  exists m out,
    nth_error (tf.sort [1; 0]) 0 = Some m /\
    Forall (fun x => x <= m) [1; 0] /\
    top_p_logits [1; 0] 0 = Ok out /\
    Forall2 (fun x y => (x = m -> y = x) /\ (x <> m -> y = sentinel))
            [1; 0] out.
Proof.
  assert (H1 : [1; 0] <> []) by discriminate.
  assert (H2 : 0 <= 0) by lra.
  split; [exact H1|]. split; [exact H2|].
  exact (top_p_zero_keeps_best [1; 0] 0 H1 H2).
Defined.

(** X8.  Top-p filtering returns a row exactly when the logits are not
    empty, and the row has their length; on an empty row
    [tf.gather_nd] rejects the index. *)
Theorem top_p_needs_a_candidate (logits : list R) (p : R) :
  ((exists out, top_p_logits logits p = Ok out) <-> logits <> []) /\
  (logits = [] -> top_p_logits logits p = Raise InvalidArgumentError) /\
  (forall out, top_p_logits logits p = Ok out ->
               List.length out = List.length logits).
Proof.
  assert (Hempty : top_p_logits [] p = Raise InvalidArgumentError).
  { unfold top_p_logits, tf.gather_nd.
    destruct (top_p_index [] p <? 0)%Z; [reflexivity|].
    cbn [tf.sort fold_right]. now destruct (Z.to_nat (top_p_index [] p)). }
  split; [split|split].
  - intros [out H] ->. rewrite Hempty in H. discriminate.
  - intros Hne. destruct (top_p_kept logits p Hne) as (N & b & _ & _ & H & _).
    eauto.
  - intros ->. exact Hempty.
  - intros out H. apply top_p_inversion in H. destruct H as (b & _ & ->).
    apply length_map.
Qed.

Lemma top_p_needs_a_candidate_witness :
  @nil R = [] /\ top_p_logits [] (1 / 2) = Raise InvalidArgumentError.
Proof.
  split; [reflexivity|].
  exact (proj1 (proj2 (top_p_needs_a_candidate [] (1 / 2))) eq_refl).
Defined.

(** * Further properties of the decoder *)

(** ** Greedy decoding *)

Section GreedyFacts.

Context {Image Attn Mask Gen : Type}.
Variable create_target_masks : list Z -> Mask.
Variable truediv : list R -> R -> list R.
Variable inp_img : Image.
Variable transformer : @Transformer Image Attn Mask.
Variables (temperature : R) (top_k : nat) (top_p : R).
Variable MAX_LENGTH : nat.

Local Abbreviation greedy_step categorical seed :=
  (decode_step create_target_masks categorical truediv inp_img transformer
               temperature top_k top_p "Greedy" seed MAX_LENGTH).
Local Abbreviation greedy_loop categorical seed :=
  (decode_loop create_target_masks categorical truediv inp_img transformer
               temperature top_k top_p "Greedy" seed MAX_LENGTH).
Local Abbreviation greedy_evaluate categorical seed tokenizer :=
  (evaluate create_target_masks categorical truediv inp_img tokenizer
            transformer temperature top_k top_p "Greedy" seed MAX_LENGTH).

(** X9.  In Greedy mode the id a step selects is the position of the
    first best entry of the last-position row divided by the
    temperature, whatever the [k] within the row and whatever the [p]:
    both filters leave the best score where it is.  (Some quotient has
    to be above the sentinel.) *)
Theorem greedy_step_is_argmax
    (categorical : list R -> Z -> Gen -> Z * Gen) (seed : Z)
    (i : nat) (out : list Z) (w : world Gen)
    (rows : list (list R)) (a : Attn) (row : list R) :
  (top_k <= List.length (truediv row temperature))%nat ->
  transformer inp_img out false (create_target_masks out) = (rows, a) ->
  last_position rows = Ok row ->
  Exists (fun x => sentinel < x) (truediv row temperature) ->
  greedy_step categorical seed i out w
  = (Ok (Z.of_nat (tf.argmax (truediv row temperature)), a),
     World (page w ++ [StProgress (INR i / INR MAX_LENGTH)]) (rng w)).
Proof.
  intros Hk Htr Hlast Hex.
  now apply (greedy_step_selects _ _ _ _ _ _ _ _ _ _ _ _ _ rows a row).
Qed.

Lemma greedy_step_sampler
    (categorical categorical' : list R -> Z -> Gen -> Z * Gen)
    (seed seed' : Z) (i : nat) (out : list Z) (w : world Gen) (g' : Gen)
    (r : result (Z * Attn)) (w' : world Gen) :
  greedy_step categorical seed i out w = (r, w') ->
  rng w' = rng w /\
  greedy_step categorical' seed' i out (World (page w) g')
  = (r, World (page w') g').
Proof.
  unfold decode_step, bind, lift, emit, ret.
  destruct (transformer _ _ _ _) as [predictions attention_weights].
  cbn [page rng].
  destruct (last_position predictions) as [row|?]; cbn [page rng];
    [|intros H; injection H as <- <-; auto].
  destruct (top_k_logits (truediv row temperature) top_k) as [kept|?];
    cbn [page rng]; [|intros H; injection H as <- <-; auto].
  destruct (top_p_logits kept top_p) as [nucleus|?]; cbn [page rng];
    [|intros H; injection H as <- <-; auto].
  rewrite String.eqb_refl. intros H; injection H as <- <-; auto.
Qed.

Lemma greedy_loop_sampler
    (categorical categorical' : list R -> Z -> Gen -> Z * Gen)
    (seed seed' : Z) (indices : list nat) :
  forall out last (w : world Gen) (g' : Gen) r w',
    greedy_loop categorical seed indices out last w = (r, w') ->
    rng w' = rng w /\
    greedy_loop categorical' seed' indices out last (World (page w) g')
    = (r, World (page w') g').
Proof.
  induction indices as [|i rest IH]; intros out last w g' r w' H.
  - rewrite loop_nil in *.
    destruct last as [[a0 i0]|]; injection H as <- <-; auto.
  - rewrite loop_cons in *.
    destruct (greedy_step categorical seed i out w) as [[[t a1]|e] w1] eqn:Hs;
      destruct (greedy_step_sampler _ categorical' _ seed' _ _ _ g' _ _ Hs)
        as [Hrng ->].
    + destruct (t =? stop_token)%Z.
      * injection H as <- <-. auto.
      * apply (IH _ _ _ g') in H. cbn [page] in H.
        destruct H as [Hrng' H]. split; [congruence | exact H].
    + injection H as <- <-. auto.
Qed.

(** X10.  In Greedy mode [evaluate] never draws: the generator is handed
    back as it was found, and the outcome and the page stay the same when
    the sampler, the seed and the generator state are exchanged. *)
Theorem greedy_ignores_sampler
    (categorical categorical' : list R -> Z -> Gen -> Z * Gen)
    (seed seed' : Z) (tokenizer : Tokenizer) (w : world Gen) (g' : Gen)
    (r : result (list Z * Attn * nat)) (w' : world Gen) :
  greedy_evaluate categorical seed tokenizer w = (r, w') ->
  rng w' = rng w /\
  greedy_evaluate categorical' seed' tokenizer (World (page w) g')
  = (r, World (page w') g').
Proof.
  rewrite !evaluate_unfold. intros H.
  apply (greedy_loop_sampler _ categorical' _ seed' _ _ _ _ g') in H.
  exact H.
Qed.

End GreedyFacts.

Lemma demo_quotient_half (row : list R) :
  demo_quotient row (1 / 2) = map (fun x => x / (1 / 2)) row.
Proof.
  unfold demo_quotient, quotient_with.
  destruct (Req_dec_T (1 / 2) 0); [lra | reflexivity].
Qed.

Lemma greedy_step_is_argmax_witness :
  (2 <= List.length (demo_quotient [2; 3; 1]%R (1 / 2)%R))%nat /\
  middle_best tt [0%Z] false (no_masks [0%Z]) = ([[2; 3; 1]], tt) /\
  last_position [[2; 3; 1]] = Ok [2; 3; 1] /\
  Exists (fun x => sentinel < x) (demo_quotient [2; 3; 1] (1 / 2)) /\
  decode_step no_masks fixed_sampler demo_quotient tt middle_best
              (1 / 2) 2 (1 / 2) "Greedy" 42 128 0 [0%Z] blank
  = (Ok (Z.of_nat (tf.argmax (demo_quotient [2; 3; 1] (1 / 2))), tt),
     World (page blank ++ [StProgress (INR 0 / INR 128)]) (rng blank)).
Proof.
  assert (H2 : (2 <= List.length (demo_quotient [2; 3; 1]%R (1 / 2)%R))%nat)
    by (rewrite demo_quotient_half; simpl; lia).
  assert (H3 : middle_best tt [0%Z] false (no_masks [0%Z])
               = ([[2; 3; 1]], tt)) by reflexivity.
  assert (H4 : last_position [[2; 3; 1]] = Ok [2; 3; 1]) by reflexivity.
  assert (H5 : Exists (fun x => sentinel < x)
                      (demo_quotient [2; 3; 1] (1 / 2)))
    by (rewrite demo_quotient_half; constructor; unfold sentinel; lra).
  split; [exact H2|]. split; [exact H3|].
  split; [exact H4|]. split; [exact H5|].
  exact (greedy_step_is_argmax no_masks demo_quotient tt middle_best
           (1 / 2) 2 (1 / 2) 128 fixed_sampler 42 0 [0%Z] blank
           [[2; 3; 1]] tt [2; 3; 1] H2 H3 H4 H5).
Defined.

Lemma greedy_ignores_sampler_witness :
  demo_evaluate stops_at_once 1 1 blank
  = (Ok ([], tt, 0%nat),
     World [StProgressNew 0; StProgress (INR 0 / INR 1); StEmpty] tt) /\
  rng (World [StProgressNew 0; StProgress (INR 0 / INR 1); StEmpty] tt)
  = rng blank /\
  evaluate no_masks (fun _ _ g => (1%Z, g)) demo_quotient tt demo_tokenizer
           stops_at_once 1 0 1 "Greedy" 7 1 (World (page blank) tt)
  = (Ok ([], tt, 0%nat),
     World [StProgressNew 0; StProgress (INR 0 / INR 1); StEmpty] tt).
Proof.
  split; [exact stops_at_once_run|].
  exact (greedy_ignores_sampler no_masks demo_quotient tt stops_at_once
           1 0 1 1
           fixed_sampler (fun _ _ g => (1%Z, g)) 42 7 demo_tokenizer
           blank tt _ _ stops_at_once_run).
Defined.

(** ** What a returning run hands back and shows *)

Lemma progress_values_app (p q : list st_event) :
  progress_values (p ++ q) = progress_values p ++ progress_values q.
Proof. unfold progress_values. apply flat_map_app. Qed.

Lemma progress_fraction (j n : nat) :
  (j < n)%nat -> 0 <= INR j / INR n < 1.
Proof.
  intros Hj. assert (Hn : 0 < INR n) by (apply lt_0_INR; lia).
  pose proof (pos_INR j) as H0. pose proof (lt_INR _ _ Hj) as Hlt.
  split.
  - apply Rmult_le_pos; [exact H0|]. left. now apply Rinv_0_lt_compat.
  - apply (Rmult_lt_reg_r (INR n)); [exact Hn|].
    unfold Rdiv. rewrite Rmult_assoc, Rinv_l, Rmult_1_r by lra. lra.
Qed.

Section DecoderMore.

Context {Image Attn Mask Gen : Type}.
Variable create_target_masks : list Z -> Mask.
Variable categorical : list R -> Z -> Gen -> Z * Gen.
Variable truediv : list R -> R -> list R.
Variable inp_img : Image.
Variable transformer : @Transformer Image Attn Mask.
Variables (temperature : R) (top_k : nat) (top_p : R).
Variables (options : string) (seed : Z) (MAX_LENGTH : nat).

Local Abbreviation step :=
  (decode_step create_target_masks categorical truediv inp_img transformer
               temperature top_k top_p options seed MAX_LENGTH).
Local Abbreviation loop :=
  (decode_loop create_target_masks categorical truediv inp_img transformer
               temperature top_k top_p options seed MAX_LENGTH).
Local Abbreviation runs :=
  (decodes create_target_masks categorical truediv inp_img transformer
           temperature top_k top_p options seed MAX_LENGTH).
Local Abbreviation eval tokenizer :=
  (evaluate create_target_masks categorical truediv inp_img tokenizer
            transformer temperature top_k top_p options seed MAX_LENGTH).

Local Abbreviation attention_of :=
  (attention_on create_target_masks inp_img transformer).

(** A step that selects an id was run in one of the two modes and hands
    on the attention weights of its own call. *)
Lemma step_selects i out w t a w' :
  step i out w = (Ok (t, a), w') ->
  a = attention_of out /\
  (options = "Greedy"%string \/ options = "Sampling"%string).
Proof.
  unfold decode_step, bind, lift, emit, ret, raise, attention_on.
  destruct (transformer _ _ _ _) as [predictions attention_weights].
  cbn [snd page rng].
  destruct (last_position predictions) as [row|?]; [|discriminate].
  destruct (top_k_logits (truediv row temperature) top_k) as [kept|?];
    [|discriminate].
  destruct (top_p_logits kept top_p) as [nucleus|?]; [|discriminate].
  destruct (String.eqb_spec options "Greedy") as [Hg|Hg].
  - intros H. injection H as _ <- _. auto.
  - destruct (String.eqb_spec options "Sampling") as [Hs|Hs];
      [|discriminate].
    destruct (categorical _ _ _). intros H. injection H as _ <- _. auto.
Qed.

Lemma loop_attention n :
  forall s out last w res a i w',
    List.length out = S s ->
    (forall a0 i0, last = Some (a0, i0) ->
                   s = S i0 /\ a0 = attention_of (firstn (S i0) out)) ->
    loop (seq s n) out last w = (Ok (res, a, i), w') ->
    exists ts,
      res = tl (out ++ ts) /\
      a = attention_of (firstn (S i) (out ++ ts)).
Proof.
  induction n as [|n IH]; intros s out last w res a i w' Hlen Hlast H.
  - cbn [seq] in H. rewrite loop_nil in H.
    destruct last as [[a0 i0]|]; [|discriminate].
    injection H as <- <- <- _. exists []. rewrite app_nil_r.
    split; [reflexivity|]. now destruct (Hlast a0 i0 eq_refl).
  - cbn [seq] in H. rewrite loop_cons in H.
    destruct (step s out w) as [[[t a1]|e] w1] eqn:Hs; [|discriminate].
    apply step_selects in Hs. destruct Hs as [Ha1 _].
    destruct (t =? stop_token)%Z.
    + injection H as <- <- <- _. exists []. rewrite app_nil_r.
      split; [reflexivity|]. rewrite firstn_all2 by lia. exact Ha1.
    + apply IH in H.
      * destruct H as (ts & Hres & Ha). exists (t :: ts).
        replace (out ++ t :: ts) with ((out ++ [t]) ++ ts)
          by (now rewrite <- app_assoc). auto.
      * rewrite length_app. simpl. lia.
      * intros a0 i0 E. injection E as <- <-. split; [reflexivity|].
        rewrite firstn_app, Hlen, Nat.sub_diag, firstn_all2 by lia.
        simpl. now rewrite app_nil_r.
Qed.

(** X11.  The attention weights [evaluate] returns are those of the last
    transformer call it made, the call of step [i]: its decoder input is
    the first [i + 1] ids of the start token followed by the returned
    sequence. *)
Theorem evaluate_attention (tokenizer : Tokenizer) (w : world Gen)
    (res : list Z) (a : Attn) (i : nat) (w' : world Gen) :
  eval tokenizer w = (Ok (res, a, i), w') ->
  a = attention_of (firstn (S i) (token_to_id tokenizer "<s>" :: res)) /\
  List.length (firstn (S i) (token_to_id tokenizer "<s>" :: res)) = S i.
Proof.
  intros H. split.
  - rewrite evaluate_unfold in H. apply loop_attention in H.
    + destruct H as (ts & -> & Ha). exact Ha.
    + reflexivity.
    + intros a0 i0 E. discriminate.
  - apply evaluate_returns in H. destruct H as (wk & _ & Hend).
    rewrite length_firstn. simpl List.length.
    destruct Hend as [(Hi & _)|(Hl & Hi & _)]; lia.
Qed.

Lemma step_progress i out w r w' :
  step i out w = (r, w') ->
  progress_values (page w')
  = progress_values (page w) ++ [INR i / INR MAX_LENGTH].
Proof.
  intros H. apply step_page in H. destruct H as (ev & -> & Hev).
  rewrite progress_values_app. f_equal.
  destruct Hev as [-> | ->]; reflexivity.
Qed.

Lemma runs_progress s out w ts wk :
  runs s out w ts wk ->
  progress_values (page wk)
  = progress_values (page w)
    ++ map (fun j => INR j / INR MAX_LENGTH) (seq s (List.length ts)).
Proof.
  induction 1 as [|i out w t a w1 ts w' Hs Ht _ IH]; simpl.
  - now rewrite app_nil_r.
  - rewrite IH, (step_progress _ _ _ _ _ Hs), <- app_assoc. reflexivity.
Qed.

(** X12.  A run that returns with third component [i] has shown the
    progress values [0 / MAX_LENGTH], ..., [i / MAX_LENGTH], in this
    order and nothing else on the bar; each lies in [[0, 1)]. *)
Theorem evaluate_progress (tokenizer : Tokenizer) (w : world Gen)
    (res : list Z) (a : Attn) (i : nat) (w' : world Gen) :
  eval tokenizer w = (Ok (res, a, i), w') ->
  progress_values (page w')
  = progress_values (page w)
    ++ map (fun j => INR j / INR MAX_LENGTH) (seq 0 (S i)) /\
  Forall (fun v => 0 <= v < 1)
         (map (fun j => INR j / INR MAX_LENGTH) (seq 0 (S i))).
Proof.
  intros H. apply evaluate_returns in H. destruct H as (wk & Hruns & Hend).
  apply runs_progress in Hruns. cbn [page] in Hruns.
  rewrite progress_values_app in Hruns. cbn [progress_values flat_map] in Hruns.
  rewrite app_nil_r in Hruns.
  assert (Hi : (S i <= MAX_LENGTH)%nat)
    by (destruct Hend as [(? & ? & _)|(? & ? & _)]; lia).
  split.
  - destruct Hend as [(Hlen & _ & w1 & Hstop & ->)|(Hlen & HS & ->)];
      unfold bar_emptied; cbn [page]; rewrite progress_values_app;
      cbn [progress_values flat_map]; rewrite !app_nil_r.
    + rewrite (step_progress _ _ _ _ _ Hstop), Hruns, <- Hlen.
      rewrite seq_S, map_app, <- app_assoc. reflexivity.
    + rewrite Hruns, Hlen, <- HS. reflexivity.
  - rewrite Forall_map. apply Forall_forall. intros j Hj.
    apply in_seq in Hj. apply progress_fraction. lia.
Qed.

(** X13.  [evaluate] returns a result only when [MAX_LENGTH] is at least
    1 and the mode is one of ['Greedy'] and ['Sampling']; with
    [MAX_LENGTH = 0] no step runs and it ends on a name that was never
    bound. *)
Theorem evaluate_returns_only_if (tokenizer : Tokenizer) (w : world Gen) :
  (forall res a i w',
      eval tokenizer w = (Ok (res, a, i), w') ->
      (1 <= MAX_LENGTH)%nat /\
      (options = "Greedy"%string \/ options = "Sampling"%string)) /\
  (MAX_LENGTH = 0%nat ->
   eval tokenizer w
   = (Raise UnboundLocalError,
      World (page w ++ [StProgressNew 0; StEmpty]) (rng w))).
Proof.
  split.
  - intros res a i w' H. apply evaluate_returns in H.
    destruct H as (wk & Hruns & Hend).
    destruct Hend as [(Hi & Hlt & w1 & Hstop & _)|(Hlen & HS & _)].
    + split; [lia|]. apply step_selects in Hstop. tauto.
    + split; [lia|]. destruct res as [|t ts]; [simpl in Hlen; lia|].
      inversion Hruns.
      match goal with
      | Hs : decode_step _ _ _ _ _ _ _ _ _ _ _ _ _ _ = (Ok _, _) |- _ =>
          apply step_selects in Hs; tauto
      end.
  - intros H0. rewrite evaluate_unfold.
    replace (seq 0 MAX_LENGTH) with (@nil nat) by (rewrite H0; reflexivity).
    rewrite loop_nil. unfold bar_emptied. cbn [page rng].
    now rewrite <- app_assoc.
Qed.

End DecoderMore.

Lemma evaluate_attention_witness :
  evaluate no_masks fixed_sampler demo_quotient tt demo_tokenizer
           counting_heads 1 0 1 "Greedy" 42 128 blank
  = (Ok ([3%Z], 2%nat, 1%nat),
     World [StProgressNew 0; StProgress (INR 0 / INR 128);
            StProgress (INR 1 / INR 128); StEmpty] tt) /\
  2%nat = attention_on no_masks tt counting_heads (firstn 2 [0%Z; 3%Z]) /\
  List.length (firstn 2 [0%Z; 3%Z]) = 2%nat.
Proof.
  split; [exact counting_heads_run|].
  exact (evaluate_attention no_masks fixed_sampler demo_quotient tt
           counting_heads 1 0 1 "Greedy" 42 128 demo_tokenizer blank
           [3%Z] 2%nat 1%nat _ counting_heads_run).
Defined.

Lemma evaluate_progress_witness :
  demo_evaluate never_stops 1 1 blank
  = (Ok ([3%Z], tt, 0%nat),
     World [StProgressNew 0; StProgress (INR 0 / INR 1); StEmpty] tt) /\
  progress_values [StProgressNew 0; StProgress (INR 0 / INR 1); StEmpty]
  = progress_values (page blank)
    ++ map (fun j => INR j / INR 1) (seq 0 1) /\
  Forall (fun v => 0 <= v < 1) (map (fun j => INR j / INR 1) (seq 0 1)).
Proof.
  split; [exact never_stops_run|].
  exact (evaluate_progress no_masks fixed_sampler demo_quotient tt never_stops
           1 0 1 "Greedy" 42 1 demo_tokenizer blank [3%Z] tt 0%nat _
           never_stops_run).
Defined.

Lemma evaluate_returns_only_if_witness :
  demo_evaluate never_stops 1 1 blank
  = (Ok ([3%Z], tt, 0%nat),
     World [StProgressNew 0; StProgress (INR 0 / INR 1); StEmpty] tt) /\
  (1 <= 1)%nat /\
  ("Greedy"%string = "Greedy"%string \/ "Greedy"%string = "Sampling"%string).
Proof.
  split; [exact never_stops_run|].
  exact (proj1 (evaluate_returns_only_if no_masks fixed_sampler demo_quotient tt
                  never_stops 1 0 1 "Greedy" 42 1 demo_tokenizer blank)
               [3%Z] tt 0%nat _ never_stops_run).
Defined.

(** * Further properties of [main] *)

Lemma subplot_indices_app (p q : list st_event) :
  subplot_indices (p ++ q) = subplot_indices p ++ subplot_indices q.
Proof. unfold subplot_indices. apply flat_map_app. Qed.

Lemma subplot_indices_decoder (ev : list st_event) :
  Forall decoder_event ev -> subplot_indices ev = [].
Proof.
  induction 1 as [|e ev He _ IH]; [reflexivity|].
  destruct e; simpl in *; try contradiction; exact IH.
Qed.

Lemma subplot_indices_plotted (f : nat -> string) (l : list nat) :
  subplot_indices (plotted f l) = map (fun j => (Z.of_nat j + 1)%Z) l.
Proof.
  induction l as [|j l IH]; simpl; [reflexivity|]. now rewrite <- IH.
Qed.

Section MainMore.

Context {Image Attn Mask Gen : Type}.
Variable create_target_masks : list Z -> Mask.
Variable categorical : list R -> Z -> Gen -> Z * Gen.
Variable truediv : list R -> R -> list R.
Variable attention_map : Attn -> result (list (list R)).
Variable tokenizer : Tokenizer.
Variable transformer : @Transformer Image Attn Mask.
Variable cxr_validator_model : Image -> R.
Variable cfg : sidebar.

Local Abbreviation run_main :=
  (main create_target_masks categorical truediv attention_map tokenizer
        transformer cxr_validator_model cfg).
Local Abbreviation run_evaluate img :=
  (evaluate create_target_masks categorical truediv img tokenizer
            transformer (temperature cfg) (top_k cfg) (top_p cfg)
            (options cfg) (seed cfg) 128).

(** X15.  After a run of [evaluate] that returns with third component
    [i], and with an attention map that has a row of 49 patch weights
    for each index below [i - 1], the sub-plots are placed at the
    positions 1, ..., [i - 1] of the 16 by 8 grid, in this order: no
    position is used twice and none falls outside the grid. *)
Theorem subplots_fit_the_grid (img : Image) (w : world Gen)
    (res : list Z) (a : Attn) (i : nat) (w1 : world Gen)
    (attn_map : list (list R)) :
  0.1 <= sigmoid (cxr_validator_model img) ->
  run_evaluate img (World (page w ++ [StImage]) (rng w))
  = (Ok (res, a, i), w1) ->
  attention_map a = Ok attn_map ->
  (forall j, (j < i - 1)%nat -> has_patches attn_map j) ->
  exists w',
    run_main (Some img) w = (Ok tt, w') /\
    subplot_indices (page w')
    = subplot_indices (page w)
      ++ map (fun j => (Z.of_nat j + 1)%Z) (seq 0 (i - 1)) /\
    Forall (fun n => (1 <= n <= 16 * 8)%Z)
           (map (fun j => (Z.of_nat j + 1)%Z) (seq 0 (i - 1))).
Proof.
  intros Hv He Hmap Hrows.
  destruct (main_renders _ _ _ _ _ _ _ _ img w res a i w1 attn_map
              Hv He Hmap Hrows) as (Hm & _ & Hlen).
  eexists. split; [exact Hm|]. cbn [page]. split.
  - rewrite evaluate_unfold in He. apply loop_events in He.
    destruct He as (ev & Hw1 & Hev). cbn [page] in Hw1.
    rewrite Hw1. rewrite !subplot_indices_app, subplot_indices_plotted.
    rewrite (subplot_indices_decoder ev Hev). cbn [subplot_indices flat_map].
    now rewrite !app_nil_r.
  - rewrite Forall_map. apply Forall_forall. intros j Hj.
    apply in_seq in Hj. destruct Hlen as [[_ Hi]|[_ Hi]]; lia.
Qed.

End MainMore.

Lemma subplots_fit_the_grid_witness :
  0.1 <= sigmoid ((fun _ : unit => 0) tt) /\
  exists w',
    main no_masks fixed_sampler demo_quotient flat_attention demo_tokenizer
         two_then_stop (fun _ : unit => 0) default_sidebar (Some tt) blank
    = (Ok tt, w') /\
    subplot_indices (page w')
    = subplot_indices (page blank)
      ++ map (fun j => (Z.of_nat j + 1)%Z) (seq 0 (2 - 1)) /\
    Forall (fun n => (1 <= n <= 16 * 8)%Z)
           (map (fun j => (Z.of_nat j + 1)%Z) (seq 0 (2 - 1))).
Proof.
  split; [exact sigmoid_0_valid|].
  exact (subplots_fit_the_grid no_masks fixed_sampler demo_quotient
           flat_attention demo_tokenizer two_then_stop (fun _ : unit => 0)
           default_sidebar tt blank [3%Z; 3%Z] tt 2%nat _
           (repeat (repeat 1 49) 129) sigmoid_0_valid
           two_then_stop_from_main eq_refl
           (fun j _ => flat_attention_patches j ltac:(lia))).
Defined.

(** * The two filters, one after the other *)

Lemma mask_only_trans (l1 l2 l3 : list R) :
  mask_only l1 l2 -> mask_only l2 l3 -> mask_only l1 l3.
Proof.
  unfold mask_only. intros H12. revert l3.
  induction H12 as [|x y l1 l2 Hxy _ IH]; intros l3 H23;
    inversion H23 as [|? z ? l3' Hyz Hrest]; subst; constructor.
  - destruct Hyz as [-> | ->]; [exact Hxy | now right].
  - now apply IH.
Qed.

(** X17.  Top-k followed by top-p, as [evaluate] applies them, still only
    masks: the row handed to the selection has the length and order of
    the logits, each entry is the logit or the sentinel, and a best
    score above the sentinel is still in its place, so at least one
    candidate is left. *)
Theorem filters_in_sequence (logits kept nucleus : list R)
    (k : nat) (p : R) :
  top_k_logits logits k = Ok kept ->
  top_p_logits kept p = Ok nucleus ->
  mask_only logits nucleus /\
  (forall i m, first_max logits i m -> sentinel < m ->
               first_max nucleus i m /\ (1 <= unmasked nucleus)%nat).
Proof.
  intros Hk Hp. split.
  - apply (mask_only_trans _ kept).
    + destruct (top_k_inversion _ _ _ Hk) as [[_ ->]|[_ (b & _ & ->)]];
        [apply mask_only_refl | apply map_mask_only].
    + destruct (top_p_inversion _ _ _ Hp) as (b & _ & ->).
      apply map_mask_only.
  - intros i m Hm Hs.
    assert (Hkept : first_max kept i m).
    { apply top_k_inversion in Hk.
      destruct Hk as [[_ ->]|[_ (b & Hb & ->)]]; [exact Hm|].
      apply first_max_mask; [exact Hm | | exact Hs].
      eapply sorted_entry_le_max; eassumption. }
    apply top_p_inversion in Hp. destruct Hp as (b' & Hb' & ->).
    assert (Hfinal : first_max (map (mask b') kept) i m).
    { apply first_max_mask; [exact Hkept | | exact Hs].
      eapply sorted_entry_le_max; eassumption. }
    split; [exact Hfinal|].
    destruct Hfinal as (Hnth & _). apply nth_error_In in Hnth.
    revert Hnth. generalize (map (mask b') kept). intros l Hin.
    unfold unmasked, count. induction l as [|x l IH]; [contradiction|].
    simpl. destruct (Req_dec_T x sentinel) as [E|E]; simpl; [|lia].
    destruct Hin as [->|Hin]; [lra | auto].
Qed.

(** With [p <= 0] the boundary score is the best one. *)
Lemma top_p_nonpositive (logits : list R) (p b : R) :
  p <= 0 ->
  nth_error (tf.sort logits) 0 = Some b ->
  top_p_logits logits p = Ok (map (mask b) logits).
Proof.
  intros Hp Hb.
  assert (Hne : logits <> []) by (intros ->; discriminate).
  destruct (top_p_kept logits p Hne) as (N & b' & HN & Hb' & Hout & Hin & _).
  assert (HN1 : N = 1%nat).
  { destruct Hin as [Hle|[H1 _]]; [|exact H1]. exfalso.
    pose proof (prefix_mass_1_pos logits Hne) as H0.
    destruct (Nat.eq_dec N 1) as [->|HN1]; [lra|].
    pose proof (prefix_mass_counted logits p 0 ltac:(lia)) as Hc0.
    pose proof (prefix_mass_counted logits p (N - 1) ltac:(lia)) as HcN.
    replace (S (N - 1)) with N in HcN by lia.
    apply HcN in Hle. assert (Hlt : prefix_mass logits 1 <= p)
      by (apply Hc0; lia). lra. }
  subst N. change (1 - 1)%nat with 0%nat in Hb'.
  rewrite Hb in Hb'. injection Hb' as <-. exact Hout.
Qed.

(** The row [[3; sentinel; 2]], as top-k left it, filtered with
    [p = 0]. *)
Lemma top_p_after_top_k :
  top_p_logits [3; sentinel; 2] 0 = Ok [3; sentinel; sentinel].
Proof.
  rewrite (top_p_nonpositive _ 0 3); [|lra|].
  - simpl. unfold mask. rcompare. reflexivity.
  - simpl. rcompare. simpl. rcompare. reflexivity.
Qed.

Lemma filters_in_sequence_witness :
  top_k_logits [3; 1; 2] 2 = Ok [3; sentinel; 2] /\
  top_p_logits [3; sentinel; 2] 0 = Ok [3; sentinel; sentinel] /\
  mask_only [3; 1; 2] [3; sentinel; sentinel] /\
  (forall i m, first_max [3; 1; 2] i m -> sentinel < m ->
               first_max [3; sentinel; sentinel] i m /\
               (1 <= unmasked [3; sentinel; sentinel]%R)%nat).
Proof.
  split; [exact top_k_triple|]. split; [exact top_p_after_top_k|].
  exact (filters_in_sequence [3; 1; 2] [3; sentinel; 2]
           [3; sentinel; sentinel] 2 0 top_k_triple top_p_after_top_k).
Defined.
